(** * Mapper: a registry of named prepared statements

    A shallow embedding of [mapper.go] (package [mapper] of PurpleSec/Mapper)
    and the properties of its operations.

    The registry is the Go struct [Map]: an exported [Database] pointer and a
    private [entries] map from names to [*sql.Stmt] pointers.  Both pointers
    and the map itself may be nil, and so may the values stored in the map.
    The reader/writer lock only matters to concurrent callers; the model is
    of one caller at a time, so the lock is left out.

    The database behind the registry is outside the program.  It is modelled
    as an oracle ([Driver]) that answers every call from the history of the
    calls made so far, and every call made is recorded in that history, so
    that statements such as "prepare is not called" can be written down. *)

From stdpp Require Import gmap strings list fin_maps.

Module Mapper.

(** ** Errors *)

(** The one double-quote character, used in the messages of the package. *)
Definition dq : string := String (Ascii.ascii_of_nat 34) EmptyString.

(** A Go [error] value: either a value of the package's own [errval] struct
    (a message [s] and an optional wrapped cause [e]) or an error made
    elsewhere (by [database/sql], the driver, or the context). *)
#[warnings="-register-all"] Inductive error : Type :=
  | ExtErr (msg : string)
  | errval (e : option error) (s : string).

Fixpoint Error (err : error) : string :=
  match err with
  | ExtErr msg => msg
  | errval None s => s
  | errval (Some e) s => s +:+ ": " +:+ Error e
  end.

Definition Unwrap (err : error) : option error :=
  match err with
  | ExtErr _ => None
  | errval e _ => e
  end.

(** The errors that repeated calls of [Unwrap] walk through, nearest cause
    first. *)
Fixpoint causes (err : error) : list error :=
  match err with
  | ExtErr _ => []
  | errval None _ => []
  | errval (Some e) _ => e :: causes e
  end.

Definition ErrInvalidDB : error := errval None "database cannot be nil".

(** The messages the operations build. *)
Definition msg_exists (name : string) : string :=
  "statement with name " +:+ dq +:+ name +:+ dq +:+ " already exists".
Definition msg_missing (name : string) : string :=
  "statement with name " +:+ dq +:+ name +:+ dq +:+ " does not exist".
Definition msg_adding (name : string) : string :=
  "error adding mapping " +:+ dq +:+ name +:+ dq.
Definition msg_closing (name : string) : string :=
  "error closing mapping " +:+ dq +:+ name +:+ dq.
Definition msg_batch (query : string) : string :=
  "error executing Init statement mapping " +:+ dq +:+ query +:+ dq.

(** The error kinds of the specification, as the values the code builds. *)
Definition DuplicateName (name : string) : error := errval None (msg_exists name).
Definition NotFound (name : string) : error := errval None (msg_missing name).
Definition PrepareFailed (name : string) (cause : error) : error :=
  errval (Some cause) (msg_adding name).
Definition CloseFailed (name : string) (cause : error) : error :=
  errval (Some cause) (msg_closing name).
Definition BatchStatementFailed (query : string) (cause : error) : error :=
  errval (Some cause) (msg_batch query).

(** An error that wraps a cause, whatever its message. *)
Definition wraps_cause (err : error) : Prop := is_Some (Unwrap err).

(** ** Handles of [database/sql] and the history of calls *)

Inductive DB : Type := DBHandle (id : nat).
Inductive Stmt : Type := StmtHandle (id : nat).
Inductive Result : Type := ResultHandle (id : nat).
Inductive Rows : Type := RowsHandle (id : nat).
Inductive Row : Type := RowHandle (id : nat).
Inductive Arg : Type := ArgInt (z : Z) | ArgStr (s : string).

(** [context.Background()] is never done; any other context may be. *)
Inductive Ctx : Type := Background | Cancellable (id : nat).

Inductive Event : Type :=
  | EvPrepare (db : DB) (query : string)
  | EvDBExec (db : DB) (query : string)
  | EvDBClose (db : DB)
  | EvStmtClose (s : Stmt)
  | EvStmtExec (s : Stmt) (args : list Arg)
  | EvStmtQuery (s : Stmt) (args : list Arg)
  | EvStmtQueryRow (s : Stmt) (args : list Arg).

(** Oldest call first. *)
Definition History : Type := list Event.

(** What the database answers to each call, given the calls made before it.
    [Stmt.QueryRowContext] of [database/sql] returns a fresh [*Row] on every
    path, so its answer is a [Row] and not an optional one.  [ctx_done] is
    [x.Err()] once the channel [x.Done()] is closed, and nil before. *)
Record Driver : Type := {
  db_prepare : History -> DB -> Ctx -> string -> Stmt + error;
  db_exec : History -> DB -> Ctx -> string -> Result + error;
  db_close : History -> DB -> option error;
  stmt_close : History -> Stmt -> option error;
  stmt_exec : History -> Stmt -> Ctx -> list Arg -> Result + error;
  stmt_query : History -> Stmt -> Ctx -> list Arg -> Rows + error;
  stmt_queryrow : History -> Stmt -> Ctx -> list Arg -> Row;
  ctx_done : History -> nat -> option error
}.

(** ** The registry *)

Record Map : Type := {
  Database : option DB;
  entries : option (gmap string (option Stmt))
}.

(** An operation either returns a value, leaving the registry and the
    history in a new state, or panics (a nil pointer is dereferenced). *)
Inductive Outcome (A : Type) : Type :=
  | Ret (a : A) (m : Map) (h : History)
  | Panic.
Arguments Ret {A} a m h.
Arguments Panic {A}.

(** Indexing a nil Go map reads as indexing an empty one. *)
Definition lookup_entry (name : string) (m : Map) : option (option Stmt) :=
  match entries m with
  | None => None
  | Some e => e !! name
  end.

(** [if m.entries == nil { m.entries = make(...) }] *)
Definition make_entries (m : Map) : gmap string (option Stmt) :=
  match entries m with
  | None => ∅
  | Some e => e
  end.

Definition with_entries (m : Map) (e : gmap string (option Stmt)) : Map :=
  {| Database := Database m; entries := Some e |}.

Section Operations.

Variable D : Driver.

(** The [select] on [x.Done()] with a [default] branch, then [x.Err()]. *)
Definition ctx_err (h : History) (x : Ctx) : option error :=
  match x with
  | Background => None
  | Cancellable id => ctx_done D h id
  end.

(** [Close] of [*sql.Stmt] and of [*sql.DB] lock a mutex of the receiver
    first, so a nil receiver is a nil pointer dereference: [None]. *)
Definition Stmt_Close (s : option Stmt) (h : History) : option (option error * History) :=
  match s with
  | None => None
  | Some v => Some (stmt_close D h v, h ++ [EvStmtClose v])
  end.

Definition DB_Close (db : option DB) (h : History) : option (option error * History) :=
  match db with
  | None => None
  | Some d => Some (db_close D h d, h ++ [EvDBClose d])
  end.

Definition Len (m : Map) : nat :=
  match entries m with
  | None => 0
  | Some e => size e
  end.

(** The body of the [range] loop of [Close], over the pairs in the order
    the loop meets them. *)
Fixpoint Close_range (order : list (string * option Stmt))
    (e : gmap string (option Stmt)) (h : History)
    : option error * gmap string (option Stmt) * History :=
  match order with
  | [] => (None, e, h)
  | (k, None) :: rest => Close_range rest e h
  | (k, Some v) :: rest =>
      match stmt_close D h v with
      | Some err => (Some (errval (Some err) (msg_closing k)), e, h ++ [EvStmtClose v])
      | None => Close_range rest (<[k := None]> e) (h ++ [EvStmtClose v])
      end
  end.

Definition Close (order : list (string * option Stmt)) (m : Map) (h : History)
    : Outcome (option error) :=
  let '(err, m1, h1) :=
    match entries m with
    | None => (None, m, h)
    | Some e => let '(r, e', h') := Close_range order e h in (r, with_entries m e', h')
    end in
  match err with
  | Some _ => Ret err m1 h1
  | None =>
      match DB_Close (Database m1) h1 with
      | None => Panic
      | Some (r, h2) => Ret r m1 h2
      end
  end.

Definition Remove (name : string) (m : Map) (h : History) : Outcome bool :=
  match entries m with
  | None => Ret false m h
  | Some e =>
      match e !! name with
      | None => Ret false m h
      | Some s =>
          match Stmt_Close s h with
          | None => Panic
          | Some (_, h') => Ret true (with_entries m (delete name e)) h'
          end
      end
  end.

Definition Contains (name : string) (m : Map) : bool :=
  if decide (Len m = 0) then false
  else match lookup_entry name m with
       | Some (Some _) => true
       | _ => false
       end.

Definition Get (name : string) (m : Map) : option Stmt * bool :=
  if decide (Len m = 0) then (None, false)
  else match lookup_entry name m with
       | Some s => (s, true)
       | None => (None, false)
       end.

Definition AddContext (x : Ctx) (name query : string) (m : Map) (h : History)
    : Outcome (option error) :=
  match Database m with
  | None => Ret (Some ErrInvalidDB) m h
  | Some db =>
      let e := make_entries m in
      match e !! name with
      | Some (Some _) => Ret (Some (errval None (msg_exists name))) (with_entries m e) h
      | _ =>
          match db_prepare D h db x query with
          | inl s => Ret None (with_entries m (<[name := Some s]> e)) (h ++ [EvPrepare db query])
          | inr err =>
              Ret (Some (errval (Some err) (msg_adding name)))
                  (with_entries m e) (h ++ [EvPrepare db query])
          end
      end
  end.

Definition Add (name query : string) : Map -> History -> Outcome (option error) :=
  AddContext Background name query.

(** The loop of [BatchContext]. *)
Fixpoint Batch_range (x : Ctx) (db : DB) (queries : list string) (h : History)
    : option error * History :=
  match queries with
  | [] => (None, h)
  | q :: rest =>
      match ctx_err h x with
      | Some err => (Some err, h)
      | None =>
          match db_exec D h db x q with
          | inr err => (Some (errval (Some err) (msg_batch q)), h ++ [EvDBExec db q])
          | inl _ => Batch_range x db rest (h ++ [EvDBExec db q])
          end
      end
  end.

Definition BatchContext (x : Ctx) (queries : list string) (m : Map) (h : History)
    : Outcome (option error) :=
  match queries with
  | [] => Ret None m h
  | _ =>
      match Database m with
      | None => Ret (Some ErrInvalidDB) m h
      | Some db => let '(r, h') := Batch_range x db queries h in Ret r m h'
      end
  end.

Definition Batch (queries : list string) : Map -> History -> Outcome (option error) :=
  BatchContext Background queries.

(** The loop of [ExtendContext], over the pairs of [data] in the order the
    [range] statement meets them. *)
Fixpoint Extend_range (x : Ctx) (db : DB) (order : list (string * string))
    (e : gmap string (option Stmt)) (h : History)
    : option error * gmap string (option Stmt) * History :=
  match order with
  | [] => (None, e, h)
  | (k, v) :: rest =>
      match ctx_err h x with
      | Some err => (Some err, e, h)
      | None =>
          match e !! k with
          | Some (Some _) => (Some (errval None (msg_exists k)), e, h)
          | _ =>
              match db_prepare D h db x v with
              | inr err => (Some (errval (Some err) (msg_adding k)), e, h ++ [EvPrepare db v])
              | inl s => Extend_range x db rest (<[k := Some s]> e) (h ++ [EvPrepare db v])
              end
          end
      end
  end.

(** [data] is a Go map that may be nil; [order] lists its pairs as the
    [range] statement yields them. *)
Definition ExtendContext (x : Ctx) (data : option (gmap string string))
    (order : list (string * string)) (m : Map) (h : History)
    : Outcome (option error) :=
  match data with
  | None => Ret None m h
  | Some _ =>
      match Database m with
      | None => Ret (Some ErrInvalidDB) m h
      | Some db =>
          let '(r, e', h') := Extend_range x db order (make_entries m) h in
          Ret r (with_entries m e') h'
      end
  end.

Definition Extend (data : option (gmap string string)) (order : list (string * string))
    : Map -> History -> Outcome (option error) :=
  ExtendContext Background data order.

Definition ExecContext (x : Ctx) (name : string) (args : list Arg) (m : Map) (h : History)
    : Outcome (Result + error) :=
  match Database m with
  | None => Ret (inr ErrInvalidDB) m h
  | Some _ =>
      if decide (Len m = 0) then Ret (inr (errval None (msg_missing name))) m h
      else match lookup_entry name m with
           | Some (Some s) => Ret (stmt_exec D h s x args) m (h ++ [EvStmtExec s args])
           | _ => Ret (inr (errval None (msg_missing name))) m h
           end
  end.

Definition QueryContext (x : Ctx) (name : string) (args : list Arg) (m : Map) (h : History)
    : Outcome (Rows + error) :=
  match Database m with
  | None => Ret (inr ErrInvalidDB) m h
  | Some _ =>
      if decide (Len m = 0) then Ret (inr (errval None (msg_missing name))) m h
      else match lookup_entry name m with
           | Some (Some s) => Ret (stmt_query D h s x args) m (h ++ [EvStmtQuery s args])
           | _ => Ret (inr (errval None (msg_missing name))) m h
           end
  end.

Definition QueryRowContext (x : Ctx) (name : string) (args : list Arg) (m : Map) (h : History)
    : Outcome (option Row * bool) :=
  match Database m with
  | None => Ret (None, false) m h
  | Some _ =>
      if decide (Len m = 0) then Ret (None, false) m h
      else match lookup_entry name m with
           | Some (Some s) =>
               Ret (Some (stmt_queryrow D h s x args), true) m (h ++ [EvStmtQueryRow s args])
           | _ => Ret (None, false) m h
           end
  end.

Definition Exec (name : string) (args : list Arg) : Map -> History -> Outcome (Result + error) :=
  ExecContext Background name args.
Definition Query (name : string) (args : list Arg) : Map -> History -> Outcome (Rows + error) :=
  QueryContext Background name args.
Definition QueryRow (name : string) (args : list Arg)
    : Map -> History -> Outcome (option Row * bool) :=
  QueryRowContext Background name args.

(** [order] lists the pairs of the Go map [m] as one [range] statement over
    it yields them: every pair once, in an order the language leaves open. *)
Definition range_of {V : Type} (m : gmap string V) (order : list (string * V)) : Prop :=
  order ≡ₚ map_to_list m.

(** The calls one run of a loop leaves in the history. *)
Definition closes (order : list (string * option Stmt)) : list Event :=
  omap (fun kv => EvStmtClose <$> kv.2) order.
Definition prepares (db : DB) (order : list (string * string)) : list Event :=
  (fun kv => EvPrepare db kv.2) <$> order.
Definition execs (db : DB) (queries : list string) : list Event :=
  EvDBExec db <$> queries.

(** What the specification says of [Extend], in its words: the semantics of
    [Add] applied to each pair in turn, the cancellation token read once
    before each, stopping at the first failure. *)
Fixpoint Extend_by_Add (x : Ctx) (order : list (string * string)) (m : Map) (h : History)
    : Outcome (option error) :=
  match order with
  | [] => Ret None m h
  | (k, v) :: rest =>
      match ctx_err h x with
      | Some err => Ret (Some err) m h
      | None =>
          match AddContext x k v m h with
          | Ret None m' h' => Extend_by_Add x rest m' h'
          | failed => failed
          end
      end
  end.

(** The states a caller can bring a registry to, starting from the literal
    [&mapper.Map{Database: db}] and calling the exported methods. *)
Inductive reachable : Map -> History -> Prop :=
  | reach_new db : reachable {| Database := db; entries := None |} []
  | reach_Add m h x name query r m' h' :
      reachable m h -> AddContext x name query m h = Ret r m' h' -> reachable m' h'
  | reach_Extend m h x data order r m' h' :
      reachable m h -> (forall d, data = Some d -> range_of d order) ->
      ExtendContext x data order m h = Ret r m' h' -> reachable m' h'
  | reach_Remove m h name r m' h' :
      reachable m h -> Remove name m h = Ret r m' h' -> reachable m' h'
  | reach_Close m h order r m' h' :
      reachable m h -> (forall e, entries m = Some e -> range_of e order) ->
      Close order m h = Ret r m' h' -> reachable m' h'
  | reach_Batch m h x queries r m' h' :
      reachable m h -> BatchContext x queries m h = Ret r m' h' -> reachable m' h'
  | reach_Exec m h x name args r m' h' :
      reachable m h -> ExecContext x name args m h = Ret r m' h' -> reachable m' h'
  | reach_Query m h x name args r m' h' :
      reachable m h -> QueryContext x name args m h = Ret r m' h' -> reachable m' h'
  | reach_QueryRow m h x name args r m' h' :
      reachable m h -> QueryRowContext x name args m h = Ret r m' h' -> reachable m' h'.

(** A name with no entry, or with an entry whose handle is nil. *)
Definition no_handle (n : string) (m : Map) : Prop :=
  lookup_entry n m = None \/ lookup_entry n m = Some None.

(** The statements [ran], executed one after the other from the history
    [h], all ran without error, and before each of them the context was
    found not done: each answer is the one the database gives at the
    history that the statements before it have left. *)
Definition ran_clean (x : Ctx) (db : DB) (ran : list string) (h : History) : Prop :=
  forall pre q post,
    ran = pre ++ q :: post ->
    ctx_err (h ++ execs db pre) x = None
    /\ exists res, db_exec D (h ++ execs db pre) db x q = inl res.

(** The three ways the loop of [BatchContext] ends, with [h'] the history
    it leaves: every statement ran without error; the statements [ran] did
    and the one after them failed; or the statements [ran] did and the
    context was then found done.  In the last two, the statement [q] is the
    first at which anything went wrong, and nothing after it runs. *)
Inductive batch_end (x : Ctx) (db : DB) (queries : list string) (h : History)
    : option error -> History -> Prop :=
  | batch_all :
      ran_clean x db queries h ->
      batch_end x db queries h None (h ++ execs db queries)
  | batch_failed ran q rest cause :
      queries = ran ++ q :: rest ->
      ran_clean x db ran h ->
      ctx_err (h ++ execs db ran) x = None ->
      db_exec D (h ++ execs db ran) db x q = inr cause ->
      batch_end x db queries h
        (Some (BatchStatementFailed q cause)) (h ++ execs db ran ++ [EvDBExec db q])
  | batch_cancelled ran q rest err :
      queries = ran ++ q :: rest ->
      ran_clean x db ran h ->
      ctx_err (h ++ execs db ran) x = Some err ->
      batch_end x db queries h (Some err) (h ++ execs db ran).

(** How a run of [Extend_by_Add] ends, [added] being the pairs it added:
    with all of them; at a context found done; at a name that already holds
    a handle; or at a text that fails to prepare.  In each case the
    registry [m'] left behind is the one that adding [added] produces. *)
Inductive extend_end (x : Ctx) (db : DB) (order : list (string * string)) (m : Map) (h : History)
    : list (string * string) -> option error -> Map -> History -> Prop :=
  | extend_all m' :
      Extend_by_Add x order m h = Ret None m' (h ++ prepares db order) ->
      extend_end x db order m h order None m' (h ++ prepares db order)
  | extend_cancelled added k v rest m' err :
      order = added ++ (k, v) :: rest ->
      Extend_by_Add x added m h = Ret None m' (h ++ prepares db added) ->
      ctx_err (h ++ prepares db added) x = Some err ->
      extend_end x db order m h added (Some err) m' (h ++ prepares db added)
  | extend_duplicate added k v rest m' s :
      order = added ++ (k, v) :: rest ->
      Extend_by_Add x added m h = Ret None m' (h ++ prepares db added) ->
      ctx_err (h ++ prepares db added) x = None ->
      lookup_entry k m' = Some (Some s) ->
      extend_end x db order m h added (Some (DuplicateName k)) m' (h ++ prepares db added)
  | extend_prepare_failed added k v rest m' cause :
      order = added ++ (k, v) :: rest ->
      Extend_by_Add x added m h = Ret None m' (h ++ prepares db added) ->
      ctx_err (h ++ prepares db added) x = None ->
      no_handle k m' ->
      db_prepare D (h ++ prepares db added) db x v = inr cause ->
      extend_end x db order m h added (Some (PrepareFailed k cause)) m'
        (h ++ prepares db added ++ [EvPrepare db v]).

(** The handle [s] is what a prepare recorded in [h], made on the
    connection [db], has answered. *)
Definition prepared (db : option DB) (h : History) (s : Stmt) : Prop :=
  exists h0 rest d x q,
    db = Some d /\ h = h0 ++ EvPrepare d q :: rest /\ db_prepare D h0 d x q = inl s.

(** What one call may do to a registry and its history: the connection
    stays, the history grows, and a handle held afterwards was held before
    or has been prepared on the connection. *)
Definition grows (m : Map) (h : History) (m' : Map) (h' : History) : Prop :=
  Database m' = Database m
  /\ (exists evs, h' = h ++ evs)
  /\ (forall k s, lookup_entry k m' = Some (Some s) ->
        lookup_entry k m = Some (Some s) \/ prepared (Database m) h' s).

End Operations.

(** ** A database to run the operations on

    Preparing or executing the text ["bad"] fails, every other text works;
    a prepared statement is numbered by the calls made before it; closing
    statement 1 fails; a cancellable context is done once the history has
    reached its number of calls.  Closing the connection answers
    [close_answer]. *)
Definition sample (close_answer : option error) : Driver := {|
  db_prepare := fun h _ _ q =>
    if decide (q = "bad") then inr (ExtErr "syntax error") else inl (StmtHandle (length h));
  db_exec := fun h _ _ q =>
    if decide (q = "bad") then inr (ExtErr "syntax error") else inl (ResultHandle (length h));
  db_close := fun _ _ => close_answer;
  stmt_close := fun _ s =>
    match s with
    | StmtHandle 1 => Some (ExtErr "statement busy")
    | _ => None
    end;
  stmt_exec := fun h _ _ _ => inl (ResultHandle (length h));
  stmt_query := fun h _ _ _ => inl (RowsHandle (length h));
  stmt_queryrow := fun h _ _ _ => RowHandle (length h);
  ctx_done := fun h id =>
    if decide (id <= length h) then Some (ExtErr "context canceled") else None
|}.

(** The same database, but one on which every statement closes. *)
Definition calm : Driver := {|
  db_prepare := db_prepare (sample None);
  db_exec := db_exec (sample None);
  db_close := db_close (sample None);
  stmt_close := fun _ _ => None;
  stmt_exec := stmt_exec (sample None);
  stmt_query := stmt_query (sample None);
  stmt_queryrow := stmt_queryrow (sample None);
  ctx_done := ctx_done (sample None)
|}.

Definition db0 : DB := DBHandle 0.

(** [&mapper.Map{Database: db0}] and [&mapper.Map{}]. *)
Definition fresh : Map := {| Database := Some db0; entries := None |}.
Definition unconnected : Map := {| Database := None; entries := None |}.

(** A registry holding one statement under the name ["a"]. *)
Definition one_entry (db : option DB) (s : option Stmt) : Map :=
  {| Database := db; entries := Some {[ "a" := s ]} |}.

(** A registry holding statements under the names ["a"] and ["b"], and the
    order in which a [range] over it may meet them that is used below. *)
Definition two_entries (a b : option Stmt) : Map :=
  {| Database := Some db0; entries := Some (<[ "b" := b ]> {[ "a" := a ]}) |}.
Definition a_then_b (a b : option Stmt) : list (string * option Stmt) :=
  [("a", a); ("b", b)].

(** The history after [Add("a", "SELECT 1")] and [Add("b", "SELECT 2")]. *)
Definition two_added : History := [EvPrepare db0 "SELECT 1"; EvPrepare db0 "SELECT 2"].

(** The mapping of the example of the specification, and one order in
    which [range] may yield it. *)
Definition three_queries : gmap string string :=
  {[ "a" := "SELECT 1"; "b" := "bad"; "c" := "SELECT 2" ]}.
Definition a_b_c : list (string * string) :=
  [("a", "SELECT 1"); ("b", "bad"); ("c", "SELECT 2")].

(** A mapping whose two texts both prepare, an order in which [range] may
    yield it, and the registry that extending [fresh] by it gives. *)
Definition two_queries : gmap string string := {[ "a" := "SELECT 1"; "c" := "SELECT 2" ]}.
Definition a_c : list (string * string) := [("a", "SELECT 1"); ("c", "SELECT 2")].
Definition fresh_extended : Map :=
  {| Database := Some db0;
     entries := Some (<[ "c" := Some (StmtHandle 1) ]> {[ "a" := Some (StmtHandle 0) ]}) |}.

(** ** Properties *)

Section Properties.

Variable D : Driver.

Implicit Types (m : Map) (h : History) (x : Ctx) (e : gmap string (option Stmt)).

Lemma with_entries_id m e : entries m = Some e -> with_entries m e = m.
Proof. destruct m as [db en]; simpl; intros ->; reflexivity. Qed.

Lemma make_entries_Some m e : entries m = Some e -> make_entries m = e.
Proof. unfold make_entries; intros ->; reflexivity. Qed.

Lemma lookup_make_entries m name : make_entries m !! name = lookup_entry name m.
Proof. unfold make_entries, lookup_entry; destruct (entries m); [done | apply lookup_empty]. Qed.

Lemma lookup_with_entries m e name : lookup_entry name (with_entries m e) = e !! name.
Proof. reflexivity. Qed.

Lemma Len_make_entries m : size (make_entries m) = Len m.
Proof. unfold make_entries, Len; destruct (entries m); [done | apply map_size_empty]. Qed.

Lemma lookup_entry_Len m name v : lookup_entry name m = Some v -> Len m <> 0.
Proof.
  unfold lookup_entry, Len; destruct (entries m) as [e|]; [|done].
  intros Hk Hz; apply map_size_empty_inv in Hz; subst e.
  by rewrite lookup_empty in Hk.
Qed.

(** [Contains] answers true exactly for the names that hold a handle. *)
Lemma Contains_true m name :
  Contains name m = true <-> exists s, lookup_entry name m = Some (Some s).
Proof.
  unfold Contains; split.
  - case_decide; [done|]. destruct (lookup_entry name m) as [[s|]|]; eauto; done.
  - intros [s Hs]. case_decide as Hz.
    + by apply lookup_entry_Len in Hs.
    + by rewrite Hs.
Qed.

(** The errors the operations build around a cause keep the cause, and
    their text is the message, which quotes the name or the statement,
    followed by the text of the cause. *)
Lemma wrapped_errors name cause :
  Unwrap (PrepareFailed name cause) = Some cause
  /\ Unwrap (CloseFailed name cause) = Some cause
  /\ Unwrap (BatchStatementFailed name cause) = Some cause
  /\ Error (PrepareFailed name cause) = msg_adding name +:+ ": " +:+ Error cause
  /\ Error (CloseFailed name cause) = msg_closing name +:+ ": " +:+ Error cause
  /\ Error (BatchStatementFailed name cause) = msg_batch name +:+ ": " +:+ Error cause.
Proof. repeat split. Qed.

(** C10: [Batch] of no statements and [Extend] of a nil mapping return nil
    whatever the registry, a registry without a connection included: the
    test for nothing to do comes before the test of the connection, so
    neither call reports [ErrInvalidDB].  Nothing is changed or called. *)
Theorem empty_input_before_connection_check x order m h :
  BatchContext D x [] m h = Ret None m h
  /\ ExtendContext D x None order m h = Ret None m h
  /\ Batch D [] unconnected h = Ret None unconnected h
  /\ Extend D None order unconnected h = Ret None unconnected h.
Proof. repeat split. Qed.

(** C9: for a name [n] with no entry in the registry and a query [q] that
    the connection of the registry prepares without error, [Add] returns
    nil, after it [Contains n] is true, and [Len] is one more than before.
    ([Add] is [AddContext] with the background context.) *)
Theorem Add_fresh_name x n q m h db s :
  Database m = Some db ->
  lookup_entry n m = None ->
  db_prepare D h db x q = inl s ->
  exists m' h',
    AddContext D x n q m h = Ret None m' h'
    /\ Contains n m' = true
    /\ Len m' = S (Len m)
    /\ lookup_entry n m' = Some (Some s).
Proof.
  intros Hdb Hn Hp. unfold AddContext. rewrite Hdb, lookup_make_entries, Hn, Hp.
  eexists _, _; split; [reflexivity|].
  assert (Hl : lookup_entry n (with_entries m (<[n:=Some s]> (make_entries m))) = Some (Some s)).
  { rewrite lookup_with_entries. apply lookup_insert_eq. }
  split; [apply Contains_true; eauto|]. split; [|done].
  unfold Len at 1; simpl. rewrite map_size_insert_None.
  - by rewrite Len_make_entries.
  - by rewrite lookup_make_entries.
Qed.

(** When [n] already holds a handle, [AddContext] calls nothing and leaves
    the registry exactly as it was; what it returns is the duplicate-name
    error, or [ErrInvalidDB] should the registry have no connection. *)
Lemma AddContext_duplicate x n q m h s :
  lookup_entry n m = Some (Some s) ->
  AddContext D x n q m h
  = Ret (Some (match Database m with Some _ => DuplicateName n | None => ErrInvalidDB end)) m h.
Proof.
  intros Hn. unfold AddContext. destruct (Database m) as [db|] eqn:Hdb; [|done].
  rewrite lookup_make_entries, Hn.
  unfold lookup_entry in Hn. destruct (entries m) as [e|] eqn:He; [|done].
  rewrite (make_entries_Some m e He), (with_entries_id m e He). reflexivity.
Qed.

(** C4: in a registry with a connection, for a name that has no entry or a
    nil handle, [ExecContext] and [QueryContext] return the not-found error
    and [QueryRowContext] returns [(nil, false)], all three without a call
    to the database.  [QueryRowContext] always returns, its result has no
    error component, and a result with [found = true] carries a row. *)
Theorem lookup_without_handle x n args m h :
  (forall db, Database m = Some db -> no_handle n m ->
     ExecContext D x n args m h = Ret (inr (NotFound n)) m h
     /\ QueryContext D x n args m h = Ret (inr (NotFound n)) m h
     /\ QueryRowContext D x n args m h = Ret (None, false) m h)
  /\ (exists row found h', QueryRowContext D x n args m h = Ret (row, found) m h'
        /\ (found = true -> is_Some row)).
Proof.
  split.
  - intros db Hdb Hn. unfold ExecContext, QueryContext, QueryRowContext. rewrite Hdb.
    case_decide; [done|]. by destruct Hn as [-> | ->].
  - unfold QueryRowContext. destruct (Database m); [|by eexists _, _, _].
    case_decide; [by eexists _, _, _|].
    destruct (lookup_entry n m) as [[s|]|]; eexists _, _, _; (split; [reflexivity|]); eauto; done.
Qed.

(** [Remove] of a name with no entry: false, and nothing changes. *)
Lemma Remove_absent n m h :
  lookup_entry n m = None -> Remove D n m h = Ret false m h.
Proof.
  unfold lookup_entry, Remove. destruct (entries m) as [e|]; [|done]. by intros ->.
Qed.

(** [Remove] of a name that holds a handle: the handle is closed, whatever
    closing answers, the entry is deleted and the result is true. *)
Lemma Remove_handle n m h s :
  lookup_entry n m = Some (Some s) ->
  exists m',
    Remove D n m h = Ret true m' (h ++ [EvStmtClose s])
    /\ lookup_entry n m' = None
    /\ Contains n m' = false
    /\ S (Len m') = Len m
    /\ (forall k, k <> n -> lookup_entry k m' = lookup_entry k m).
Proof.
  unfold lookup_entry at 1, Remove. destruct (entries m) as [e|] eqn:He; [|done].
  intros Hn. rewrite Hn. simpl. eexists; split; [reflexivity|].
  assert (Hl : lookup_entry n (with_entries m (delete n e)) = None)
    by (rewrite lookup_with_entries; apply lookup_delete_eq).
  repeat split.
  - done.
  - destruct (Contains n _) eqn:Hc; [|done].
    apply Contains_true in Hc as [? Hc]. congruence.
  - unfold Len; simpl. rewrite He. rewrite map_size_delete, Hn.
    assert (size e <> 0); [|lia].
    intros Hz; apply map_size_empty_inv in Hz; subst e. by rewrite lookup_empty in Hn.
  - intros k Hk. rewrite lookup_with_entries. unfold lookup_entry. rewrite He.
    by apply lookup_delete_ne.
Qed.

(** [Remove] of a name whose entry holds a nil handle calls [Close] on the
    nil pointer. *)
Lemma Remove_nil_handle n m h :
  lookup_entry n m = Some None -> Remove D n m h = Panic.
Proof.
  unfold lookup_entry, Remove. destruct (entries m) as [e|]; [|done]. by intros ->.
Qed.

(** Without a connection, every operation that tests the connection
    reports it and does nothing else. *)
Lemma nil_Database_reported x n q args d order qs m h :
  Database m = None -> qs <> [] ->
  AddContext D x n q m h = Ret (Some ErrInvalidDB) m h
  /\ ExtendContext D x (Some d) order m h = Ret (Some ErrInvalidDB) m h
  /\ BatchContext D x qs m h = Ret (Some ErrInvalidDB) m h
  /\ ExecContext D x n args m h = Ret (inr ErrInvalidDB) m h
  /\ QueryContext D x n args m h = Ret (inr ErrInvalidDB) m h
  /\ QueryRowContext D x n args m h = Ret (None, false) m h.
Proof.
  intros Hdb Hqs.
  unfold AddContext, ExtendContext, BatchContext, ExecContext, QueryContext, QueryRowContext.
  rewrite Hdb. destruct qs; done.
Qed.

(** [Close] of the empty registry [&mapper.Map{}]. *)
Lemma Close_unconnected order h : Close D order unconnected h = Panic.
Proof. reflexivity. Qed.

(** C8, where the code departs from it: in a registry without a
    connection, [Close] does not report the nil [Database]: when no entry
    fails to close (and so when there is no entry at all) it goes on to call
    [Close] on the nil pointer and panics. *)
Theorem Close_without_connection_panics order m h :
  Database m = None ->
  (forall e, entries m = Some e -> (Close_range D order e h).1.1 = None) ->
  Close D order m h = Panic.
Proof.
  intros Hdb Hok. unfold Close. destruct (entries m) as [e|].
  - specialize (Hok e eq_refl).
    destruct (Close_range D order e h) as [[err e'] h1]. simpl in Hok. subst err.
    simpl. by rewrite Hdb.
  - by rewrite Hdb.
Qed.

(** More generally, [Close] without a connection never returns nil: it
    returns the error of an entry that failed to close, or it panics. *)
Lemma Close_nil_Database order m h :
  Database m = None ->
  Close D order m h = Panic
  \/ exists err m' h', Close D order m h = Ret (Some err) m' h'.
Proof.
  intros Hdb. unfold Close. destruct (entries m) as [e|].
  - destruct (Close_range D order e h) as [[[err|] e'] h'].
    + right; eauto.
    + left. simpl. by rewrite Hdb.
  - left. by rewrite Hdb.
Qed.

(** *** Batch *)

Lemma ran_clean_nil x db h : ran_clean D x db [] h.
Proof. intros [|? ?] ? ? ?; done. Qed.

Lemma ran_clean_cons x db q ran h res :
  ctx_err D h x = None ->
  db_exec D h db x q = inl res ->
  ran_clean D x db ran (h ++ [EvDBExec db q]) ->
  ran_clean D x db (q :: ran) h.
Proof.
  intros Hx Hq Hran [|q0 pre] q1 post Heq; simpl in Heq; inversion Heq; subst.
  - unfold execs; simpl. rewrite app_nil_r. eauto.
  - specialize (Hran pre q1 post eq_refl). by rewrite <- app_assoc in Hran.
Qed.

Lemma Batch_range_end x db queries h :
  batch_end D x db queries h (Batch_range D x db queries h).1 (Batch_range D x db queries h).2.
Proof.
  revert h; induction queries as [|q qs IH]; intros h; simpl.
  - pose proof (batch_all D x db [] h (ran_clean_nil x db h)) as H.
    simpl in H. by rewrite app_nil_r in H.
  - destruct (ctx_err D h x) as [err|] eqn:Hx; simpl.
    { pose proof (batch_cancelled D x db (q :: qs) h [] q qs err) as H.
      simpl in H. rewrite app_nil_r in H. apply H; [done|apply ran_clean_nil|done]. }
    destruct (db_exec D h db x q) as [res|cause] eqn:Hq; simpl.
    + destruct (IH (h ++ [EvDBExec db q])) as [Hall|ran q' rest cause Hqs Hran Hx' Hq'
                                               |ran q' rest err Hqs Hran Hx'].
      * rewrite <- app_assoc. apply (batch_all D x db (q :: qs) h).
        by apply (ran_clean_cons x db q qs h res).
      * rewrite <- !app_assoc in *. simpl in *.
        apply (batch_failed D x db (q :: qs) h (q :: ran) q' rest cause);
          [by rewrite Hqs | by apply (ran_clean_cons x db q ran h res) | done | done].
      * rewrite <- !app_assoc in *. simpl in *.
        apply (batch_cancelled D x db (q :: qs) h (q :: ran) q' rest err);
          [by rewrite Hqs | by apply (ran_clean_cons x db q ran h res) | done].
    + pose proof (batch_failed D x db (q :: qs) h [] q qs cause) as H.
      simpl in H. rewrite app_nil_r in H. apply H; [done|apply ran_clean_nil|done|done].
Qed.

(** C6: for a list of statements that is not empty, [BatchContext] (and so
    [Batch]) without a connection returns [ErrInvalidDB]; with one it leaves
    the registry as it was and runs the statements on the connection in the
    order of the list.  It returns nil only when every statement ran without
    error and the context was never found done.  Otherwise it stops at the
    first statement that fails, or before the first statement at which the
    context is found done: every statement before that one ran without
    error, a failure is returned wrapped in an error whose message quotes
    the text of the failing statement, a done context is returned as its
    own error, and no statement after that one runs. *)
Theorem BatchContext_in_order x queries m h :
  queries <> [] ->
  match Database m with
  | None => BatchContext D x queries m h = Ret (Some ErrInvalidDB) m h
  | Some db =>
      exists r h', BatchContext D x queries m h = Ret r m h'
                   /\ batch_end D x db queries h r h'
  end.
Proof.
  intros Hne. unfold BatchContext. destruct queries as [|q qs]; [done|].
  destruct (Database m) as [db|]; [|done].
  pose proof (Batch_range_end x db (q :: qs) h) as Hend.
  destruct (Batch_range D x db (q :: qs) h) as [r h'].
  by exists r, h'.
Qed.

(** *** Extend *)

(** [AddContext] never takes a handle away: a name that holds a handle
    holds the same one afterwards. *)
Lemma AddContext_keeps x n q m h r m' h' k s :
  AddContext D x n q m h = Ret r m' h' ->
  lookup_entry k m = Some (Some s) -> lookup_entry k m' = Some (Some s).
Proof.
  unfold AddContext. intros Hadd Hk. destruct (Database m) as [db|]; [|congruence].
  rewrite <- lookup_make_entries in Hk.
  destruct (make_entries m !! n) as [[s'|]|] eqn:Hn;
    [by inversion Hadd; subst | |];
    (destruct (db_prepare D h db x q); inversion Hadd; subst; [|done]);
    rewrite lookup_with_entries; (rewrite lookup_insert_ne; [done | congruence]).
Qed.

(** The loop of [ExtendContext] does to the map what [Add], tried on each
    pair in turn, does to a registry that holds it. *)
Lemma Extend_range_by_Add x db order m e h :
  Database m = Some db ->
  Extend_by_Add D x order (with_entries m e) h
  = let '(r, e', h') := Extend_range D x db order e h in Ret r (with_entries m e') h'.
Proof.
  intros Hdb. revert e h; induction order as [|[k v] rest IH]; intros e h; simpl; [done|].
  destruct (ctx_err D h x); [done|]. unfold AddContext.
  change (Database (with_entries m e)) with (Database m). rewrite Hdb.
  change (make_entries (with_entries m e)) with e.
  destruct (e !! k) as [[s|]|]; [reflexivity | |];
    (destruct (db_prepare D h db x v); [apply IH | reflexivity]).
Qed.

Lemma no_handle_lookup k m e :
  entries m = Some e ->
  match e !! k with Some (Some _) => False | _ => True end -> no_handle k m.
Proof.
  unfold no_handle, lookup_entry. intros ->. destruct (e !! k) as [[?|]|]; [done|by right|by left].
Qed.

Lemma extend_end_cons x db k v rest m h m1 added r m' h' :
  ctx_err D h x = None ->
  AddContext D x k v m h = Ret None m1 (h ++ [EvPrepare db v]) ->
  extend_end D x db rest m1 (h ++ [EvPrepare db v]) added r m' h' ->
  extend_end D x db ((k, v) :: rest) m h ((k, v) :: added) r m' h'.
Proof.
  intros Hx Hadd Hend.
  assert (Hstep : forall done m2,
    Extend_by_Add D x done m1 (h ++ [EvPrepare db v])
    = Ret None m2 ((h ++ [EvPrepare db v]) ++ prepares db done) ->
    Extend_by_Add D x ((k, v) :: done) m h = Ret None m2 (h ++ prepares db ((k, v) :: done))).
  { intros done m2 Hrun. simpl. rewrite Hx, Hadd, Hrun. by rewrite <- app_assoc. }
  destruct Hend as [m' Hall | added k' v' rest' m' err Ho Hadded Hx'
                   | added k' v' rest' m' s' Ho Hadded Hx' Hk'
                   | added k' v' rest' m' cause Ho Hadded Hx' Hk' Hp'];
    rewrite <- ?app_assoc; simpl.
  - apply (extend_all D x db ((k, v) :: rest) m h m'). by apply Hstep.
  - rewrite <- app_assoc in Hx'.
    apply (extend_cancelled D x db ((k, v) :: rest) m h ((k, v) :: added) k' v' rest' m' err);
      [by rewrite Ho | by apply Hstep | done].
  - rewrite <- app_assoc in Hx'.
    apply (extend_duplicate D x db ((k, v) :: rest) m h ((k, v) :: added) k' v' rest' m' s');
      [by rewrite Ho | by apply Hstep | done | done].
  - rewrite <- app_assoc in Hx', Hp'.
    apply (extend_prepare_failed D x db ((k, v) :: rest) m h ((k, v) :: added) k' v' rest' m' cause);
      [by rewrite Ho | by apply Hstep | done | done | done].
Qed.

Lemma Extend_by_Add_end x db order m h e :
  Database m = Some db -> entries m = Some e ->
  exists added r m' h',
    Extend_by_Add D x order m h = Ret r m' h' /\ extend_end D x db order m h added r m' h'.
Proof.
  intros Hdb. revert m h e Hdb; induction order as [|[k v] rest IH]; intros m h e Hdb He.
  { exists [], None, m, h. split; [done|].
    pose proof (extend_all D x db [] m h m) as H. simpl in H. rewrite app_nil_r in H. by apply H. }
  simpl. destruct (ctx_err D h x) as [err|] eqn:Hx.
  { exists [], (Some err), m, h. split; [done|].
    pose proof (extend_cancelled D x db ((k, v) :: rest) m h [] k v rest m err) as H.
    simpl in H. rewrite app_nil_r in H. by apply H. }
  destruct (AddContext D x k v m h) as [r m1 h1|] eqn:Hadd.
  2: { unfold AddContext in Hadd. rewrite Hdb in Hadd.
       destruct (make_entries m !! k) as [[?|]|]; [done| |];
         by destruct (db_prepare D h db x v). }
  unfold AddContext in Hadd. rewrite Hdb, (make_entries_Some m e He) in Hadd.
  rewrite (with_entries_id m e He) in Hadd.
  destruct (e !! k) as [[s|]|] eqn:Hk.
  { inversion Hadd; subst r m1 h1.
    exists [], (Some (DuplicateName k)), m, h. split; [done|].
    pose proof (extend_duplicate D x db ((k, v) :: rest) m h [] k v rest m s) as H.
    simpl in H. rewrite app_nil_r in H. apply H; try done.
    unfold lookup_entry. by rewrite He. }
  all: destruct (db_prepare D h db x v) as [s|cause] eqn:Hp;
    inversion Hadd; subst r m1 h1; clear Hadd.
  1,3: destruct (IH (with_entries m (<[k:=Some s]> e)) (h ++ [EvPrepare db v])
                   (<[k:=Some s]> e) Hdb eq_refl) as (added & r & m' & h' & Hrun & Hend);
    exists ((k, v) :: added), r, m', h'; (split; [done|]);
    apply (extend_end_cons x db k v rest m h (with_entries m (<[k:=Some s]> e)) added r m' h' Hx);
      [|done];
    unfold AddContext; by rewrite Hdb, (make_entries_Some m e He), Hk, Hp.
  all: exists [], (Some (PrepareFailed k cause)), m, (h ++ [EvPrepare db v]); (split; [done|]);
    pose proof (extend_prepare_failed D x db ((k, v) :: rest) m h [] k v rest m cause) as H;
    simpl in H; rewrite app_nil_r in H; apply H; try done;
    apply (no_handle_lookup k m e He); by rewrite Hk.
Qed.

(** The pairs a successful run has added all hold a handle at its end. *)
Lemma Extend_by_Add_keeps x order m h r m' h' k s :
  Extend_by_Add D x order m h = Ret r m' h' ->
  lookup_entry k m = Some (Some s) -> lookup_entry k m' = Some (Some s).
Proof.
  revert m h; induction order as [|[k0 v0] rest IH]; intros m h; simpl.
  { by intros [= <- <- <-]. }
  destruct (ctx_err D h x); [by intros [= <- <- <-]|].
  destruct (AddContext D x k0 v0 m h) as [[err|] m1 h1|] eqn:Hadd; [| |done].
  - intros [= <- <- <-]. by apply (AddContext_keeps _ _ _ _ _ _ _ _ _ _ Hadd).
  - intros Hrun Hk. apply (IH _ _ Hrun). by apply (AddContext_keeps _ _ _ _ _ _ _ _ _ _ Hadd).
Qed.

Lemma AddContext_added x n q m h m' h' :
  AddContext D x n q m h = Ret None m' h' -> exists s, lookup_entry n m' = Some (Some s).
Proof.
  unfold AddContext. destruct (Database m) as [db|]; [|done].
  destruct (make_entries m !! n) as [[?|]|]; [done| |];
    (destruct (db_prepare D h db x q) as [s|]; [|done]);
    intros [= <- <-]; exists s; rewrite lookup_with_entries; apply lookup_insert_eq.
Qed.

Lemma Extend_by_Add_in_place x order m h m' h' k v :
  Extend_by_Add D x order m h = Ret None m' h' ->
  (k, v) ∈ order -> exists s, lookup_entry k m' = Some (Some s).
Proof.
  revert m h; induction order as [|[k0 v0] rest IH]; intros m h; simpl.
  { intros _ Hin. by apply elem_of_nil in Hin. }
  destruct (ctx_err D h x); [done|].
  destruct (AddContext D x k0 v0 m h) as [[err|] m1 h1|] eqn:Hadd; [done| |done].
  intros Hrun [[= -> ->] | Hin]%elem_of_cons.
  - destruct (AddContext_added _ _ _ _ _ _ _ Hadd) as [s Hs].
    exists s. by apply (Extend_by_Add_keeps _ _ _ _ _ _ _ _ _ Hrun).
  - by apply (IH _ _ Hrun).
Qed.

(** C5: [ExtendContext] (and so [Extend]) on a mapping that is not nil
    reports a missing connection; with a connection it does what [Add]
    does, pair after pair in the order the pairs are met, reading the
    cancellation token once before each pair, and it stops at the first
    pair that fails: at a context found done, at a name that already holds
    a handle, or at a text that fails to prepare.  The pairs met before
    that one stay added, each under a handle, so the call is not
    all-or-nothing; handles held before the call are kept; no pair after
    the failing one is prepared. *)
Theorem ExtendContext_stops_at_first_failure x d order m h :
  match Database m with
  | None => ExtendContext D x (Some d) order m h = Ret (Some ErrInvalidDB) m h
  | Some db =>
      let m0 := with_entries m (make_entries m) in
      ExtendContext D x (Some d) order m h = Extend_by_Add D x order m0 h
      /\ exists added r m' h',
           ExtendContext D x (Some d) order m h = Ret r m' h'
           /\ extend_end D x db order m0 h added r m' h'
           /\ (forall k v, (k, v) ∈ added -> exists s, lookup_entry k m' = Some (Some s))
           /\ (forall k s, lookup_entry k m = Some (Some s) ->
                 lookup_entry k m' = Some (Some s))
  end.
Proof.
  destruct (Database m) as [db|] eqn:Hdb; [|unfold ExtendContext; by rewrite Hdb].
  intros m0.
  assert (Heq : ExtendContext D x (Some d) order m h = Extend_by_Add D x order m0 h).
  { unfold ExtendContext, m0. rewrite Hdb. symmetry. by apply Extend_range_by_Add. }
  split; [done|]. rewrite Heq.
  destruct (Extend_by_Add_end x db order m0 h (make_entries m) Hdb eq_refl)
    as (added & r & m' & h' & Hrun & Hend).
  exists added, r, m', h'. split; [done|]. split; [done|]. split.
  - intros k v Hin.
    assert (Hadded : exists hd, Extend_by_Add D x added m0 h = Ret None m' hd)
      by (destruct Hend; eauto).
    destruct Hadded as [hd Hadded]. by apply (Extend_by_Add_in_place x added m0 h m' hd k v Hadded).
  - intros k s Hk. apply (Extend_by_Add_keeps x order m0 h r m' h' k s Hrun).
    unfold m0. by rewrite lookup_with_entries, lookup_make_entries.
Qed.

(** *** Close *)

Lemma range_of_lookup {V} (g : gmap string V) order k v :
  range_of g order -> (k, v) ∈ order <-> g !! k = Some v.
Proof. unfold range_of. intros Hp. rewrite Hp. apply elem_of_map_to_list. Qed.

Lemma range_of_NoDup {V} (g : gmap string V) order :
  range_of g order -> NoDup (order.*1).
Proof. unfold range_of. intros Hp. rewrite Hp. apply NoDup_fst_map_to_list. Qed.

Lemma closes_app o1 o2 : closes (o1 ++ o2) = closes o1 ++ closes o2.
Proof. apply omap_app. Qed.

Lemma elem_of_closes s order : EvStmtClose s ∈ closes order <-> exists k, (k, Some s) ∈ order.
Proof.
  unfold closes. rewrite list_elem_of_omap. split.
  - intros ([k [v|]] & Hin & Hev); simpl in Hev; [|done]. inversion Hev; subst. eauto.
  - intros [k Hin]. by exists (k, Some s).
Qed.

(** The loop of [Close] touches an entry only to set it to nil, and only
    for a pair it has met with a handle. *)
Lemma Close_range_lookup order e h r e' h' k :
  Close_range D order e h = (r, e', h') ->
  e' !! k = e !! k \/ (e' !! k = Some None /\ exists v, (k, Some v) ∈ order).
Proof.
  revert e h; induction order as [|[k0 [v0|]] rest IH]; intros e h; simpl.
  - intros [= <- <- <-]. by left.
  - destruct (stmt_close D h v0); [intros [= <- <- <-]; by left|].
    intros Hrun. destruct (IH _ _ Hrun) as [Heq | [Hnil [v Hin]]].
    + destruct (decide (k0 = k)) as [->|Hne].
      * right. rewrite Heq, lookup_insert_eq. split; [done|]. exists v0. apply elem_of_cons; by left.
      * left. by rewrite Heq, lookup_insert_ne.
    + right. split; [done|]. exists v. apply elem_of_cons; by right.
  - intros Hrun. destruct (IH _ _ Hrun) as [Heq | [Hnil [v Hin]]]; [by left|].
    right. split; [done|]. exists v. apply elem_of_cons; by right.
Qed.

(** A run of the loop that meets no failure: each close answered nil, the
    history grew by those closes, and each pair met with a handle now has
    a nil one. *)
Lemma Close_range_ok order e h e' h' :
  Close_range D order e h = (None, e', h') ->
  h' = h ++ closes order
  /\ (forall k v, (k, Some v) ∈ order -> e' !! k = Some None)
  /\ (forall pre k v post, order = pre ++ (k, Some v) :: post ->
        stmt_close D (h ++ closes pre) v = None).
Proof.
  revert e h; induction order as [|[k0 [v0|]] rest IH]; intros e h; simpl.
  - intros [= <- <-]. split; [by rewrite app_nil_r|]. split.
    + intros k v Hin. by apply elem_of_nil in Hin.
    + intros [|] ? ? ? ?; done.
  - destruct (stmt_close D h v0) eqn:Hc; [done|]. intros Hrun.
    destruct (IH _ _ Hrun) as (Hh & Hnil & Hpre). split; [|split].
    + unfold closes in *; simpl. by rewrite Hh, <- app_assoc.
    + intros k v [[= -> ->] | Hin]%elem_of_cons; [|by eapply Hnil].
      destruct (Close_range_lookup _ _ _ _ _ _ k0 Hrun) as [Heq | [? _]]; [|done].
      by rewrite Heq, lookup_insert_eq.
    + intros [|p pre] k v post Ho; simpl in Ho; inversion Ho; subst.
      * by rewrite app_nil_r.
      * specialize (Hpre pre k v post eq_refl). by rewrite <- app_assoc in Hpre.
  - intros Hrun. destruct (IH _ _ Hrun) as (Hh & Hnil & Hpre). split; [|split].
    + done.
    + intros k v [[=] | Hin]%elem_of_cons. by eapply Hnil.
    + intros [|p pre] k v post Ho; simpl in Ho; inversion Ho; subst.
      unfold closes; simpl. by eapply Hpre.
Qed.

(** A run of the loop that ends in an error: it met [closed] without a
    failure, and then a handle whose close failed. *)
Lemma Close_range_failed order e h err e' h' :
  Close_range D order e h = (Some err, e', h') ->
  exists closed k v rest cause,
    order = closed ++ (k, Some v) :: rest
    /\ Close_range D closed e h = (None, e', h ++ closes closed)
    /\ stmt_close D (h ++ closes closed) v = Some cause
    /\ err = CloseFailed k cause
    /\ h' = h ++ closes closed ++ [EvStmtClose v].
Proof.
  revert e h; induction order as [|[k0 [v0|]] rest IH]; intros e h; simpl; [done| |].
  - destruct (stmt_close D h v0) as [cause|] eqn:Hc.
    + intros [= <- <- <-]. exists [], k0, v0, rest, cause. simpl. by rewrite !app_nil_r.
    + intros Hrun. destruct (IH _ _ Hrun) as (closed & k & v & rest' & cause & -> & Hok & Hv & -> & ->).
      exists ((k0, Some v0) :: closed), k, v, rest', cause.
      unfold closes in *; simpl. rewrite Hc, Hok. rewrite <- !app_assoc in *. done.
  - intros Hrun. destruct (IH _ _ Hrun) as (closed & k & v & rest' & cause & -> & Hok & Hv & -> & ->).
    exists ((k0, None) :: closed), k, v, rest', cause. by unfold closes in *; simpl.
Qed.

(** The statements one call of [Close] closes are among those the loop
    meets with a handle. *)
Lemma Close_events order m h r m' h' :
  Close D order m h = Ret r m' h' ->
  exists evs, h' = h ++ evs
    /\ forall s, EvStmtClose s ∈ evs -> is_Some (entries m) /\ exists k, (k, Some s) ∈ order.
Proof.
  unfold Close. destruct (entries m) as [e|].
  - destruct (Close_range D order e h) as [[[err|] e'] h1] eqn:Hrun.
    + intros [= <- <- <-].
      destruct (Close_range_failed _ _ _ _ _ _ Hrun)
        as (closed & k & v & rest & cause & -> & _ & _ & _ & ->).
      eexists; split; [done|]. intros s Hs. split; [done|].
      apply elem_of_app in Hs as [Hs | [= ->]%list_elem_of_singleton].
      * apply elem_of_closes in Hs as [k' Hin]. exists k'. apply elem_of_app; by left.
      * exists k. apply elem_of_app; right. apply elem_of_cons; by left.
    + destruct (Close_range_ok _ _ _ _ _ Hrun) as (-> & _ & _). simpl.
      destruct (Database m) as [db|]; [|done]. simpl. intros [= <- <- <-].
      exists (closes order ++ [EvDBClose db]). split; [by rewrite app_assoc|].
      intros s [Hs | Hs]%elem_of_app; [|by apply list_elem_of_singleton in Hs].
      split; [done|]. by apply elem_of_closes.
  - destruct (Database m) as [db|]; [|done]. simpl. intros [= <- <- <-].
    exists [EvDBClose db]. split; [done|]. intros s Hs. by apply list_elem_of_singleton in Hs.
Qed.

(** The statements a call of [Close] closes are handles the registry holds
    when it is called: an entry set to nil by an earlier call is skipped. *)
Lemma Close_only_held order m h r m' h' :
  range_of (make_entries m) order ->
  Close D order m h = Ret r m' h' ->
  exists evs, h' = h ++ evs
    /\ forall s, EvStmtClose s ∈ evs -> exists k, lookup_entry k m = Some (Some s).
Proof.
  intros Horder Hclose. destruct (Close_events _ _ _ _ _ _ Hclose) as (evs & -> & Hevs).
  exists evs. split; [done|]. intros s Hs. destruct (Hevs s Hs) as [_ [k Hin]].
  exists k. rewrite <- lookup_make_entries. by apply (range_of_lookup _ order).
Qed.

Lemma Close_no_entries order m h db :
  Database m = Some db -> entries m = None ->
  Close D order m h = Ret (db_close D h db) m (h ++ [EvDBClose db]).
Proof. unfold Close. intros Hdb ->. simpl. by rewrite Hdb. Qed.

(** C2, as amended: in a registry with a connection, [Close] closes the
    handles in the order it meets the entries and sets each closed entry to
    nil.  At the first handle whose close fails it returns that error
    wrapped with the name of the entry; the entries met before it are nil,
    the failing entry and all others are as they were, and the connection
    is not closed.  When no close fails every entry is left nil, the
    connection is closed, and what closing the connection answers is
    returned as it is, without a wrapper.  A later [Close] closes only
    handles still held, never an entry already set to nil. *)
Theorem Close_stops_at_first_failure order m h db :
  Database m = Some db ->
  range_of (make_entries m) order ->
  exists closed r m' h',
    Close D order m h = Ret r m' h'
    /\ Database m' = Some db
    /\ (forall pre k v post, closed = pre ++ (k, Some v) :: post ->
          stmt_close D (h ++ closes pre) v = None)
    /\ (forall k v, (k, Some v) ∈ closed -> lookup_entry k m' = Some None)
    /\ (forall k, (forall v, (k, Some v) ∉ closed) -> lookup_entry k m' = lookup_entry k m)
    /\ ((exists k v rest cause,
           order = closed ++ (k, Some v) :: rest
           /\ stmt_close D (h ++ closes closed) v = Some cause
           /\ r = Some (CloseFailed k cause)
           /\ h' = h ++ closes closed ++ [EvStmtClose v]
           /\ lookup_entry k m' = Some (Some v))
        \/ (closed = order
            /\ (forall k, lookup_entry k m' = (fun _ => None) <$> lookup_entry k m)
            /\ r = db_close D (h ++ closes order) db
            /\ h' = h ++ closes order ++ [EvDBClose db]))
    /\ (forall order2 r2 m2 h2,
          range_of (make_entries m') order2 ->
          Close D order2 m' h' = Ret r2 m2 h2 ->
          exists evs, h2 = h' ++ evs
            /\ forall s, EvStmtClose s ∈ evs -> exists k, lookup_entry k m' = Some (Some s)).
Proof.
  intros Hdb Horder.
  assert (Hretry : forall m' h' order2 r2 m2 h2,
    range_of (make_entries m') order2 -> Close D order2 m' h' = Ret r2 m2 h2 ->
    exists evs, h2 = h' ++ evs
      /\ forall s, EvStmtClose s ∈ evs -> exists k, lookup_entry k m' = Some (Some s))
    by (intros; by eapply Close_only_held).
  destruct (entries m) as [e|] eqn:He.
  2: { assert (order = []) as ->.
       { unfold range_of, make_entries in Horder. rewrite He, map_to_list_empty in Horder.
         by apply Permutation_nil_r. }
       exists [], (db_close D h db), m, (h ++ [EvDBClose db]).
       split; [by apply Close_no_entries|]. split; [done|].
       split; [intros [|] ? ? ? ?; done|].
       split; [intros k v Hin; by apply elem_of_nil in Hin|]. split; [done|].
       split; [|by apply Hretry]. right. simpl. rewrite app_nil_r.
       split; [done|]. split; [|done]. intros k. unfold lookup_entry. by rewrite He. }
  rewrite (make_entries_Some m e He) in Horder.
  assert (Hsame : forall closed e' hd k,
    Close_range D closed e h = (None, e', hd) ->
    (forall v, (k, Some v) ∉ closed) -> lookup_entry k (with_entries m e') = lookup_entry k m).
  { intros closed e' hd k Hrun Hk. rewrite lookup_with_entries. unfold lookup_entry. rewrite He.
    destruct (Close_range_lookup _ _ _ _ _ _ k Hrun) as [Heq | [_ [v Hin]]]; [done|].
    by apply Hk in Hin. }
  unfold Close. rewrite He.
  destruct (Close_range D order e h) as [[[err|] e'] h1] eqn:Hrun.
  - destruct (Close_range_failed _ _ _ _ _ _ Hrun)
      as (closed & k & v & rest & cause & Ho & Hok & Hv & -> & ->).
    destruct (Close_range_ok _ _ _ _ _ Hok) as (_ & Hnil & Hpre).
    exists closed, (Some (CloseFailed k cause)), (with_entries m e'),
      (h ++ closes closed ++ [EvStmtClose v]).
    split; [done|]. split; [done|]. split; [done|].
    split; [intros k' v' Hin; rewrite lookup_with_entries; by eapply Hnil|].
    split; [intros k' Hk'; by eapply Hsame|]. split; [|by apply Hretry].
    left. exists k, v, rest, cause. repeat (split; [done|]).
    rewrite (Hsame closed e' _ k Hok).
    + unfold lookup_entry. rewrite He. apply (range_of_lookup e order); [done|].
      rewrite Ho. apply elem_of_app; right. apply elem_of_cons; by left.
    + intros v' Hin. apply range_of_NoDup in Horder. rewrite Ho, fmap_app in Horder.
      apply NoDup_app in Horder as (_ & Hdisj & _).
      apply (Hdisj k); [by apply (list_elem_of_fmap_2 fst _ (k, Some v'))|].
      simpl. apply elem_of_cons; by left.
  - destruct (Close_range_ok _ _ _ _ _ Hrun) as (-> & Hnil & Hpre). simpl. rewrite Hdb. simpl.
    exists order, (db_close D (h ++ closes order) db), (with_entries m e'),
      ((h ++ closes order) ++ [EvDBClose db]).
    split; [done|]. split; [done|]. split; [done|].
    split; [intros k' v' Hin; rewrite lookup_with_entries; by eapply Hnil|].
    split; [intros k' Hk'; by eapply Hsame|]. split; [|by apply Hretry].
    right. split; [done|]. split; [|by rewrite app_assoc].
    intros k. unfold lookup_entry at 2. rewrite He.
    destruct (e !! k) as [[v|]|] eqn:Hk; simpl.
    + rewrite lookup_with_entries. apply (Hnil k v). by apply (range_of_lookup e order).
    + rewrite (Hsame order e' _ k Hrun); [unfold lookup_entry; by rewrite He|].
      intros v Hin. apply (range_of_lookup e order) in Hin; [congruence|done].
    + rewrite (Hsame order e' _ k Hrun); [unfold lookup_entry; by rewrite He|].
      intros v Hin. apply (range_of_lookup e order) in Hin; [congruence|done].
Qed.

(** *** Entries with a nil handle *)

(** [Close] deletes nothing: each entry is as it was or holds nil. *)
Lemma Close_keeps_names order m h r m' h' :
  range_of (make_entries m) order ->
  Close D order m h = Ret r m' h' ->
  Len m' = Len m
  /\ forall k, (is_Some (lookup_entry k m') <-> is_Some (lookup_entry k m))
               /\ (lookup_entry k m' = lookup_entry k m \/ lookup_entry k m' = Some None).
Proof.
  intros Horder. unfold Close. destruct (entries m) as [e|] eqn:He.
  2: { destruct (DB_Close D (Database m) h) as [[r1 h1]|]; [|done].
       intros [= <- <- <-]. split; [done|]. intros k. split; [done|by left]. }
  rewrite (make_entries_Some m e He) in Horder.
  destruct (Close_range D order e h) as [[err e'] h1] eqn:Hrun.
  assert (Hk : forall k, (is_Some (e' !! k) <-> is_Some (e !! k))
                         /\ (e' !! k = e !! k \/ e' !! k = Some None)).
  { intros k. destruct (Close_range_lookup _ _ _ _ _ _ k Hrun) as [Heq | [Hnil [v Hin]]].
    - rewrite Heq. split; [done|by left].
    - apply (range_of_lookup e order) in Hin; [|done]. rewrite Hnil, Hin.
      split; [|by right]. split; eauto. }
  assert (Hm' : m' = with_entries m e' -> Len m' = Len m
    /\ forall k, (is_Some (lookup_entry k m') <-> is_Some (lookup_entry k m))
                 /\ (lookup_entry k m' = lookup_entry k m \/ lookup_entry k m' = Some None)).
  { intros ->. split.
    - unfold Len; simpl. rewrite He, <- !size_dom. f_equal.
      apply set_eq. intros k. rewrite !elem_of_dom. apply Hk.
    - intros k. rewrite lookup_with_entries. unfold lookup_entry. rewrite He. apply Hk. }
  destruct err as [err|]; simpl.
  - intros [= <- <- <-]. by apply Hm'.
  - destruct (DB_Close D (Database m) h1) as [[r1 h2]|]; [|done].
    intros [= <- <- <-]. by apply Hm'.
Qed.

(** C3, as amended: [Contains] answers true exactly for the names that
    hold a handle, so it never reports an entry whose handle is nil;
    [Remove], when it returns true, has deleted the entry; [Close] deletes
    no entry: every name keeps its entry, with the handle it had or with
    nil, and [Len] is unchanged, so entries with a nil handle stay in the
    registry after [Close] has returned. *)
Theorem nil_handles_stay_after_Close n order m h :
  (Contains n m = true <-> exists s, lookup_entry n m = Some (Some s))
  /\ (lookup_entry n m = Some None -> Contains n m = false)
  /\ (forall m' h', Remove D n m h = Ret true m' h' -> lookup_entry n m' = None)
  /\ (range_of (make_entries m) order ->
      forall r m' h', Close D order m h = Ret r m' h' ->
        Len m' = Len m
        /\ forall k, (is_Some (lookup_entry k m') <-> is_Some (lookup_entry k m))
                     /\ (lookup_entry k m' = lookup_entry k m
                         \/ lookup_entry k m' = Some None)).
Proof.
  split; [apply Contains_true|]. split; [|split].
  - intros Hn. destruct (Contains n m) eqn:Hc; [|done].
    apply Contains_true in Hc as [s Hs]. congruence.
  - unfold Remove. intros m' h'. destruct (entries m) as [e|]; [|done].
    destruct (e !! n) as [s|]; [|done]. destruct (Stmt_Close D s h) as [[? ?]|]; [|done].
    intros [= <- <-]. rewrite lookup_with_entries. apply lookup_delete_eq.
  - intros Horder r m' h'. by apply Close_keeps_names.
Qed.

(** ** Further properties of the operations *)

Lemma Len_0_lookup m name : Len m = 0 -> lookup_entry name m = None.
Proof.
  intros Hz. destruct (lookup_entry name m) as [v|] eqn:Hn; [|done].
  by apply lookup_entry_Len in Hn.
Qed.

(** [Get] answers by the entry alone: the test of the length that precedes
    the lookup changes nothing.  It reports a name as found whenever the
    name has an entry, a nil handle included, and [Contains] is true exactly
    when [Get] hands out a handle that is not nil. *)
Theorem Get_and_Contains n m :
  Get n m = match lookup_entry n m with
            | Some s => (s, true)
            | None => (None, false)
            end
  /\ (Contains n m = true <-> exists s, Get n m = (Some s, true))
  /\ (Contains n m = false /\ (Get n m).2 = true <-> lookup_entry n m = Some None).
Proof.
  assert (HG : Get n m = match lookup_entry n m with
                         | Some s => (s, true)
                         | None => (None, false)
                         end).
  { unfold Get. case_decide as Hz; [|done]. by rewrite (Len_0_lookup m n Hz). }
  split; [done|]. rewrite HG. split.
  - rewrite Contains_true. split; intros [s Hs]; exists s.
    + by rewrite Hs.
    + destruct (lookup_entry n m) as [v|]; [|done]. by inversion Hs.
  - split.
    + intros [Hc Hf]. destruct (lookup_entry n m) as [[s|]|] eqn:Hn; [|done|done].
      assert (Contains n m = true) by (apply Contains_true; eauto). congruence.
    + intros Hn. rewrite Hn. split; [|done].
      destruct (Contains n m) eqn:Hc; [|done]. apply Contains_true in Hc as [s Hs]. congruence.
Qed.

(** In a registry with a connection, [ExecContext], [QueryContext] and
    [QueryRowContext] on a name that holds a handle make one call, on that
    handle, and return what it answers as it is, an error included, without
    a wrapper; the registry is not changed. *)
Theorem lookup_with_handle x n args m h db s :
  Database m = Some db ->
  lookup_entry n m = Some (Some s) ->
  ExecContext D x n args m h = Ret (stmt_exec D h s x args) m (h ++ [EvStmtExec s args])
  /\ QueryContext D x n args m h = Ret (stmt_query D h s x args) m (h ++ [EvStmtQuery s args])
  /\ QueryRowContext D x n args m h
     = Ret (Some (stmt_queryrow D h s x args), true) m (h ++ [EvStmtQueryRow s args]).
Proof.
  intros Hdb Hn. unfold ExecContext, QueryContext, QueryRowContext. rewrite Hdb, Hn.
  pose proof (lookup_entry_Len m n _ Hn). by case_decide.
Qed.

(** What [AddContext] does to the registry when the prepare succeeds. *)
Lemma AddContext_prepared x n q m h db s :
  Database m = Some db -> no_handle n m -> db_prepare D h db x q = inl s ->
  AddContext D x n q m h
  = Ret None (with_entries m (<[n := Some s]> (make_entries m))) (h ++ [EvPrepare db q]).
Proof.
  intros Hdb Hn Hp. unfold AddContext. rewrite Hdb, lookup_make_entries, Hp.
  by destruct Hn as [-> | ->].
Qed.

(** Round trip of [Add] and [Get]: when the name holds no handle (it has no
    entry, or a nil one left by [Close]) and the prepare succeeds, [Add]
    stores the prepared handle, [Get] returns that handle, and [Exec] on the
    name runs it.  [Len] grows by one for a name without an entry and stays
    as it was for a name with a nil one; other names are not touched. *)
Theorem Add_then_Get x n q m h db s :
  Database m = Some db ->
  no_handle n m ->
  db_prepare D h db x q = inl s ->
  exists m',
    AddContext D x n q m h = Ret None m' (h ++ [EvPrepare db q])
    /\ Get n m' = (Some s, true)
    /\ Contains n m' = true
    /\ Len m' = match lookup_entry n m with Some _ => Len m | None => S (Len m) end
    /\ (forall k, k <> n -> lookup_entry k m' = lookup_entry k m)
    /\ (forall x' args h',
          ExecContext D x' n args m' h'
          = Ret (stmt_exec D h' s x' args) m' (h' ++ [EvStmtExec s args])).
Proof.
  intros Hdb Hn Hp. eexists. split; [by apply AddContext_prepared|].
  set (m' := with_entries m (<[n:=Some s]> (make_entries m))).
  assert (Hl : lookup_entry n m' = Some (Some s)) by apply lookup_insert_eq.
  split; [|split; [|split; [|split]]].
  - unfold Get. pose proof (lookup_entry_Len m' n _ Hl). case_decide; [done|]. by rewrite Hl.
  - apply Contains_true; eauto.
  - unfold Len at 1; simpl. rewrite <- (lookup_make_entries m n), <- Len_make_entries.
    destruct (make_entries m !! n) as [v|] eqn:Hk.
    + by apply map_size_insert_Some.
    + by apply map_size_insert_None.
  - intros k Hk. unfold m'. rewrite lookup_with_entries, lookup_insert_ne by done.
    apply lookup_make_entries.
  - intros x' args h'. unfold ExecContext. change (Database m') with (Database m).
    rewrite Hdb, Hl. pose proof (lookup_entry_Len m' n _ Hl). by case_decide.
Qed.

(** When the prepare fails, [AddContext] returns the error of the database
    wrapped with the name, from which [Unwrap] gives it back; one prepare
    was called; no name gains or loses an entry and [Len] is unchanged. *)
Theorem AddContext_prepare_fails x n q m h db cause :
  Database m = Some db ->
  no_handle n m ->
  db_prepare D h db x q = inr cause ->
  exists m',
    AddContext D x n q m h = Ret (Some (PrepareFailed n cause)) m' (h ++ [EvPrepare db q])
    /\ Unwrap (PrepareFailed n cause) = Some cause
    /\ Error (PrepareFailed n cause) = msg_adding n +:+ ": " +:+ Error cause
    /\ Database m' = Some db
    /\ Len m' = Len m
    /\ (forall k, lookup_entry k m' = lookup_entry k m).
Proof.
  intros Hdb Hn Hp. exists (with_entries m (make_entries m)). split.
  - unfold AddContext. rewrite Hdb, lookup_make_entries, Hp. by destruct Hn as [-> | ->].
  - repeat split; [done| |].
    + unfold Len at 1; simpl. apply Len_make_entries.
    + intros k. rewrite lookup_with_entries. apply lookup_make_entries.
Qed.

(** [AddContext] always returns; whatever it returns, it keeps the
    connection, calls nothing but at most one prepare, and touches no name
    other than the one it is given. *)
Theorem AddContext_frame x n q m h :
  exists r m' h',
    AddContext D x n q m h = Ret r m' h'
    /\ Database m' = Database m
    /\ (h' = h \/ exists db, Database m = Some db /\ h' = h ++ [EvPrepare db q])
    /\ (forall k, k <> n -> lookup_entry k m' = lookup_entry k m)
    /\ (is_Some r -> forall k, lookup_entry k m' = lookup_entry k m).
Proof.
  unfold AddContext. destruct (Database m) as [db|] eqn:Hdb.
  2: { eexists _, _, _. split; [done|]. rewrite Hdb. repeat split; eauto. }
  assert (Hinit : forall k, lookup_entry k (with_entries m (make_entries m)) = lookup_entry k m)
    by (intros k; rewrite lookup_with_entries; apply lookup_make_entries).
  assert (Hins : forall s k, k <> n ->
    lookup_entry k (with_entries m (<[n:=Some s]> (make_entries m))) = lookup_entry k m).
  { intros s k Hk. rewrite lookup_with_entries, lookup_insert_ne by done.
    apply lookup_make_entries. }
  destruct (make_entries m !! n) as [[s0|]|];
    [eexists _, _, _; split; [done|]; repeat split; eauto | |];
    (destruct (db_prepare D h db x q) as [s|cause];
     eexists _, _, _; (split; [done|]); simpl;
     (split; [done|]); (split; [right; eauto|]); split; eauto;
     try (by intros [? [=]])).
Qed.

(** [Remove] of a name without an entry returns false and does nothing.
    [Remove] of a name that holds a handle closes that handle, once, and
    returns true whatever the close answers; the entry is deleted, [Len] is
    one less, the connection and every other name are as they were. *)
Theorem Remove_closes_and_deletes n m h :
  (lookup_entry n m = None -> Remove D n m h = Ret false m h)
  /\ (forall s, lookup_entry n m = Some (Some s) ->
        exists m',
          Remove D n m h = Ret true m' (h ++ [EvStmtClose s])
          /\ Database m' = Database m
          /\ lookup_entry n m' = None
          /\ (Get n m' = (None, false) /\ Contains n m' = false)
          /\ S (Len m') = Len m
          /\ (forall k, k <> n -> lookup_entry k m' = lookup_entry k m)).
Proof.
  split; [apply Remove_absent|]. intros s Hn.
  destruct (Remove_handle n m h s Hn) as (m' & Hrun & Hgone & Hc & Hlen & Hframe).
  exists m'. split; [done|]. split.
  { revert Hrun. unfold Remove. destruct (entries m) as [e|]; [|done].
    destruct (e !! n) as [v|]; [|done]. destruct (Stmt_Close D v h) as [[? ?]|]; [|done].
    by intros [= <- _]. }
  split; [done|]. split; [|done]. split; [|done].
  unfold Get. case_decide; [done|]. by rewrite Hgone.
Qed.

(** [Add] and then [Remove] of a name that had no entry: the prepared
    handle is closed again and the registry holds what it held before.  When
    the map was already made, the registry is the same as before. *)
Theorem Add_then_Remove x n q m h db s :
  Database m = Some db ->
  lookup_entry n m = None ->
  db_prepare D h db x q = inl s ->
  exists m1 m2,
    AddContext D x n q m h = Ret None m1 (h ++ [EvPrepare db q])
    /\ Remove D n m1 (h ++ [EvPrepare db q])
       = Ret true m2 (h ++ [EvPrepare db q; EvStmtClose s])
    /\ Len m2 = Len m
    /\ (forall k, lookup_entry k m2 = lookup_entry k m)
    /\ (is_Some (entries m) -> m2 = m).
Proof.
  intros Hdb Hn Hp.
  exists (with_entries m (<[n:=Some s]> (make_entries m))),
         (with_entries m (make_entries m)).
  split; [apply AddContext_prepared; [done|by left|done]|].
  assert (Hdel : delete n (<[n:=Some s]> (make_entries m)) = make_entries m).
  { apply delete_insert_id. by rewrite lookup_make_entries. }
  split; [|split; [|split]].
  - unfold Remove; simpl. rewrite lookup_insert_eq. simpl.
    rewrite <- app_assoc. simpl. unfold with_entries; simpl. by rewrite Hdel.
  - unfold Len at 1; simpl. apply Len_make_entries.
  - intros k. rewrite lookup_with_entries. apply lookup_make_entries.
  - intros [e He]. rewrite (make_entries_Some m e He). by apply with_entries_id.
Qed.

(** [ExtendContext] on a mapping of one pair is [AddContext] of that pair,
    unless the context is already done; so [Extend] of one pair is [Add]. *)
Theorem Extend_one_pair_is_Add x n q m h :
  ctx_err D h x = None ->
  ExtendContext D x (Some {[ n := q ]}) [(n, q)] m h = AddContext D x n q m h.
Proof.
  intros Hx. unfold ExtendContext, AddContext. destruct (Database m) as [db|]; [|done].
  simpl. rewrite Hx. destruct (make_entries m !! n) as [[s|]|]; [done| |];
    by destruct (db_prepare D h db x q).
Qed.

(** A run of the loop of [ExtendContext] that ends without an error, over
    names that are all different and have no entry yet: every pair was
    prepared, in order, every name now holds a handle, the map has grown by
    the number of pairs, and no other name is touched. *)
Lemma Extend_range_all x db order e h e' h' :
  NoDup (order.*1) ->
  (forall k, k ∈ order.*1 -> e !! k = None) ->
  Extend_range D x db order e h = (None, e', h') ->
  h' = h ++ prepares db order
  /\ size e' = size e + length order
  /\ (forall k, k ∈ order.*1 -> exists s, e' !! k = Some (Some s))
  /\ (forall k, k ∉ order.*1 -> e' !! k = e !! k).
Proof.
  revert e h; induction order as [|[k v] rest IH]; intros e h Hnd Hfresh; simpl.
  { intros [= <- <-]. split; [by rewrite app_nil_r|]. split; [lia|]. split; [|done].
    intros k Hk. by apply elem_of_nil in Hk. }
  simpl in Hnd. apply NoDup_cons in Hnd as [Hk Hnd].
  destruct (ctx_err D h x); [done|].
  assert (Hek : e !! k = None) by (apply Hfresh; simpl; apply elem_of_cons; by left).
  rewrite Hek. destruct (db_prepare D h db x v) as [s|]; [|done]. intros Hrun.
  destruct (IH (<[k:=Some s]> e) (h ++ [EvPrepare db v]) Hnd) as (-> & Hsize & Hin & Hout);
    [|done|].
  { intros k' Hk'. rewrite lookup_insert_ne; [|by intros ->].
    apply Hfresh. simpl. apply elem_of_cons; by right. }
  split; [by rewrite <- app_assoc|]. split; [|split].
  - rewrite Hsize, map_size_insert_None by done. simpl. lia.
  - intros k' [-> | Hk']%elem_of_cons; [|by apply Hin].
    exists s. rewrite (Hout k Hk). apply lookup_insert_eq.
  - intros k' Hk'. simpl in Hk'. apply not_elem_of_cons in Hk' as [Hne Hk'].
    rewrite (Hout k' Hk'). by apply lookup_insert_ne.
Qed.

(** When [ExtendContext] returns nil for a mapping none of whose names has
    an entry, all of the mapping is registered: each of its texts was
    prepared on the connection, each of its names answers [Contains] with
    true, [Len] has grown by the size of the mapping, and the names outside
    it are as they were. *)
Theorem Extend_all_added x d order m h m' h' :
  range_of d order ->
  (forall k, is_Some (d !! k) -> lookup_entry k m = None) ->
  ExtendContext D x (Some d) order m h = Ret None m' h' ->
  (exists db, Database m = Some db /\ h' = h ++ prepares db order)
  /\ Len m' = Len m + size d
  /\ (forall k, is_Some (d !! k) -> Contains k m' = true)
  /\ (forall k, d !! k = None -> lookup_entry k m' = lookup_entry k m).
Proof.
  intros Horder Hfresh. unfold ExtendContext. destruct (Database m) as [db|]; [|done].
  destruct (Extend_range D x db order (make_entries m) h) as [[r e'] h1] eqn:Hrun.
  intros [= -> <- <-].
  assert (Hkeys : forall k, k ∈ order.*1 <-> is_Some (d !! k)).
  { intros k. rewrite list_elem_of_fmap. split.
    - intros ([k0 v] & -> & Hin). apply (range_of_lookup d order) in Hin; [eauto|done].
    - intros [v Hv]. exists (k, v). split; [done|]. by apply (range_of_lookup d order). }
  destruct (Extend_range_all x db order (make_entries m) h e' h1)
    as (Hh & Hsize & Hin & Hout); [| |done|].
  { by apply (range_of_NoDup d). }
  { intros k Hk. rewrite lookup_make_entries. apply Hfresh. by apply Hkeys. }
  split; [eauto|]. split; [|split].
  - unfold Len at 1; simpl. rewrite Hsize, Len_make_entries.
    unfold range_of in Horder. by rewrite Horder, length_map_to_list.
  - intros k Hk. apply Contains_true. apply Hin. by apply Hkeys.
  - intros k Hk. rewrite lookup_with_entries, Hout; [apply lookup_make_entries|].
    rewrite Hkeys, Hk. by intros [? ?].
Qed.

(** The loop of [Close] over a database on which no statement fails to
    close. *)
Lemma Close_range_no_failure order e h :
  (forall hh s, stmt_close D hh s = None) ->
  (Close_range D order e h).1.1 = None.
Proof.
  intros Hok. revert e h; induction order as [|[k [v|]] rest IH]; intros e h; simpl; [done| |].
  - rewrite Hok. apply IH.
  - apply IH.
Qed.

(** The loop of [Close] over pairs that all have a nil handle does
    nothing. *)
Lemma Close_range_all_nil order e h :
  (forall k v, (k, v) ∈ order -> v = None) ->
  Close_range D order e h = (None, e, h).
Proof.
  revert e h; induction order as [|[k v] rest IH]; intros e h Hnil; simpl; [done|].
  rewrite (Hnil k v) by (apply elem_of_cons; by left).
  apply IH. intros k' v' Hin. apply (Hnil k'). apply elem_of_cons; by right.
Qed.

(** On a database on which no statement fails to close, [Close] of a
    registry with a connection closes every handle held and then the
    connection, and returns what closing the connection answers.  Afterwards
    no name holds a handle: [Contains] is false and [ExecContext] answers
    not found for every name, while every name keeps its entry and [Len] is
    what it was. *)
Theorem Close_closes_everything order m h db :
  Database m = Some db ->
  range_of (make_entries m) order ->
  (forall hh s, stmt_close D hh s = None) ->
  exists m',
    Close D order m h = Ret (db_close D (h ++ closes order) db) m'
                          (h ++ closes order ++ [EvDBClose db])
    /\ (forall s, EvStmtClose s ∈ closes order <-> exists k, lookup_entry k m = Some (Some s))
    /\ (forall k, no_handle k m')
    /\ (forall k, is_Some (lookup_entry k m') <-> is_Some (lookup_entry k m))
    /\ Len m' = Len m
    /\ (forall k x args hh,
          Contains k m' = false
          /\ ExecContext D x k args m' hh = Ret (inr (NotFound k)) m' hh).
Proof.
  intros Hdb Horder Hok.
  assert (Hheld : forall s, EvStmtClose s ∈ closes order
                            <-> exists k, lookup_entry k m = Some (Some s)).
  { intros s. rewrite elem_of_closes. split; intros [k Hk]; exists k.
    - rewrite <- lookup_make_entries. by apply (range_of_lookup _ order).
    - rewrite <- lookup_make_entries in Hk. by apply (range_of_lookup _ order) in Hk. }
  assert (Hfinds : forall m', Database m' = Some db -> (forall k, no_handle k m') ->
    forall k x args hh, Contains k m' = false
      /\ ExecContext D x k args m' hh = Ret (inr (NotFound k)) m' hh).
  { intros m' Hdb' Hnone k x args hh. split.
    - destruct (Contains k m') eqn:Hc; [|done].
      apply Contains_true in Hc as [s Hs]. destruct (Hnone k); congruence.
    - unfold ExecContext. rewrite Hdb'. case_decide; [done|]. by destruct (Hnone k) as [-> | ->]. }
  destruct (entries m) as [e|] eqn:He.
  2: { assert (order = []) as ->.
       { unfold range_of, make_entries in Horder. rewrite He, map_to_list_empty in Horder.
         by apply Permutation_nil_r. }
       exists m. simpl. rewrite app_nil_r. split; [by apply Close_no_entries|].
       assert (Hnone : forall k, no_handle k m) by (intros k; left; unfold lookup_entry; by rewrite He).
       repeat split; try done; try apply Hheld; by apply Hfinds. }
  rewrite (make_entries_Some m e He) in Horder.
  pose proof (Close_range_no_failure order e h Hok) as Hnf.
  unfold Close. rewrite He.
  destruct (Close_range D order e h) as [[err e'] h1] eqn:Hrun. simpl in Hnf. subst err.
  destruct (Close_range_ok _ _ _ _ _ Hrun) as (-> & Hnil & _). simpl. rewrite Hdb. simpl.
  assert (Hk : forall k, e' !! k = (fun _ => None) <$> e !! k).
  { intros k. destruct (e !! k) as [[v|]|] eqn:Hek; simpl.
    - apply (Hnil k v). by apply (range_of_lookup e order).
    - destruct (Close_range_lookup _ _ _ _ _ _ k Hrun) as [Heq | [? _]]; congruence.
    - destruct (Close_range_lookup _ _ _ _ _ _ k Hrun) as [Heq | [_ [v Hin]]]; [congruence|].
      apply (range_of_lookup e order) in Hin; [congruence|done]. }
  assert (Hnone : forall k, no_handle k (with_entries m e')).
  { intros k. unfold no_handle. rewrite lookup_with_entries, Hk.
    destruct (e !! k); [by right|by left]. }
  exists (with_entries m e'). split; [by rewrite <- app_assoc|]. split; [done|].
  split; [done|]. split; [|split; [|by apply Hfinds]].
  - intros k. rewrite lookup_with_entries, Hk. unfold lookup_entry. rewrite He.
    destruct (e !! k); simpl; split; intros [? ?]; eauto; done.
  - unfold Len; simpl. rewrite He, <- !size_dom. f_equal.
    apply set_eq. intros k. rewrite !elem_of_dom, Hk.
    destruct (e !! k); simpl; split; intros [? ?]; eauto; done.
Qed.

(** [Close] of a registry in which no name holds a handle, as the registry
    is after a [Close] that closed everything, calls [Close] on no
    statement: it closes the connection (again) and leaves the registry as
    it is. *)
Theorem Close_again order m h db :
  Database m = Some db ->
  range_of (make_entries m) order ->
  (forall k, no_handle k m) ->
  Close D order m h = Ret (db_close D h db) m (h ++ [EvDBClose db]).
Proof.
  intros Hdb Horder Hnone. destruct (entries m) as [e|] eqn:He.
  2: by apply Close_no_entries.
  rewrite (make_entries_Some m e He) in Horder.
  unfold Close. rewrite He, Close_range_all_nil.
  - simpl. rewrite Hdb. simpl. by rewrite (with_entries_id m e He).
  - intros k [v|] Hin; [|done]. apply (range_of_lookup e order) in Hin; [|done].
    destruct (Hnone k) as [Hk | Hk]; unfold lookup_entry in Hk; rewrite He in Hk; congruence.
Qed.

(** [Batch], which runs under the background context, never returns the
    error of a context.  It returns nil exactly when every statement of the
    list, run at the history the statements before it have left, answers
    without error; the whole list has then run, in order.  Otherwise it
    returns the error of the first statement that fails, wrapped with the
    text of that statement: the statements before it all ran without error,
    it ran, and none after it did. *)
Theorem Batch_without_context queries m h db :
  Database m = Some db ->
  exists r h',
    Batch D queries m h = Ret r m h'
    /\ ((r = None /\ ran_clean D Background db queries h /\ h' = h ++ execs db queries)
        \/ (exists ran q rest cause,
              queries = ran ++ q :: rest
              /\ ran_clean D Background db ran h
              /\ db_exec D (h ++ execs db ran) db Background q = inr cause
              /\ r = Some (BatchStatementFailed q cause)
              /\ Unwrap (BatchStatementFailed q cause) = Some cause
              /\ h' = h ++ execs db ran ++ [EvDBExec db q]))
    /\ (r = None <->
        forall pre q post, queries = pre ++ q :: post ->
          exists res, db_exec D (h ++ execs db pre) db Background q = inl res).
Proof.
  intros Hdb. unfold Batch, BatchContext. destruct queries as [|q0 qs].
  { exists None, h. split; [done|]. split.
    - left. split; [done|]. split; [apply ran_clean_nil|].
      unfold execs; simpl. by rewrite app_nil_r.
    - split; [|done]. intros _ [|? ?] ? ? ?; done. }
  rewrite Hdb. pose proof (Batch_range_end Background db (q0 :: qs) h) as Hend.
  destruct (Batch_range D Background db (q0 :: qs) h) as [r h']. simpl in Hend.
  exists r, h'. split; [done|].
  destruct Hend as [Hall|ran q rest cause Hqs Hran Hx Hq|ran q rest err Hqs Hran Hx]; [| |done].
  - split; [by left|]. split; [|done]. intros _ pre q post Heq. by apply (Hall pre q post).
  - split; [right; by exists ran, q, rest, cause|]. split; [done|].
    intros Hok. destruct (Hok ran q rest Hqs) as [res Hres]. congruence.
Qed.

(** A context that is already done stops [BatchContext] and
    [ExtendContext] before their first call to the database, with the error
    of the context as it is; but [ExtendContext] over no pair at all returns
    nil, and [AddContext] does not look at the context itself: it calls
    prepare and leaves the context to the database. *)
Theorem done_context_calls_nothing x err n q d order queries m h db :
  Database m = Some db ->
  ctx_err D h x = Some err ->
  (queries <> [] -> BatchContext D x queries m h = Ret (Some err) m h)
  /\ (order <> [] ->
      ExtendContext D x (Some d) order m h
      = Ret (Some err) (with_entries m (make_entries m)) h)
  /\ ExtendContext D x (Some d) [] m h = Ret None (with_entries m (make_entries m)) h
  /\ (no_handle n m ->
      exists r m', AddContext D x n q m h = Ret r m' (h ++ [EvPrepare db q])).
Proof.
  intros Hdb Hx. unfold BatchContext, ExtendContext, AddContext. rewrite Hdb.
  split; [|split; [|split]].
  - destruct queries as [|q0 qs]; [done|]. intros _. simpl. by rewrite Hx.
  - destruct order as [|[k v] rest]; [done|]. intros _. simpl. by rewrite Hx.
  - done.
  - intros Hn. rewrite lookup_make_entries.
    destruct Hn as [-> | ->]; destruct (db_prepare D h db x q); eauto.
Qed.

(** [ExecContext], [QueryContext], [QueryRowContext] and [BatchContext]
    always return and never change the registry; the first three make no
    call at all unless the name holds a handle, and then one call on that
    handle. *)
Theorem reads_keep_registry x n args queries m h :
  (exists r h', ExecContext D x n args m h = Ret r m h'
     /\ (h' = h \/ exists s, lookup_entry n m = Some (Some s) /\ h' = h ++ [EvStmtExec s args]))
  /\ (exists r h', QueryContext D x n args m h = Ret r m h'
        /\ (h' = h \/ exists s, lookup_entry n m = Some (Some s)
                                /\ h' = h ++ [EvStmtQuery s args]))
  /\ (exists r h', QueryRowContext D x n args m h = Ret r m h'
        /\ (h' = h \/ exists s, lookup_entry n m = Some (Some s)
                                /\ h' = h ++ [EvStmtQueryRow s args]))
  /\ (exists r h', BatchContext D x queries m h = Ret r m h').
Proof.
  unfold ExecContext, QueryContext, QueryRowContext, BatchContext.
  destruct (Database m) as [db|].
  - repeat split.
    1-3: case_decide; [eexists _, _; split; [done|by left]|];
         destruct (lookup_entry n m) as [[s|]|]; eexists _, _; (split; [done|]); eauto.
    destruct queries; [by eexists _, _|].
    destruct (Batch_range D x db (s :: queries) h); by eexists _, _.
  - repeat split; try (eexists _, _; split; [done|by left]).
    destruct queries; by eexists _, _.
Qed.

(** *** What every call keeps *)

Lemma prepared_app db h s evs : prepared D db h s -> prepared D db (h ++ evs) s.
Proof.
  intros (h0 & rest & d & x & q & -> & -> & Hp).
  exists h0, (rest ++ evs), d, x, q. by rewrite <- app_assoc.
Qed.

Lemma grows_same m h evs : grows D m h m (h ++ evs).
Proof. split; [done|]. split; [eauto|]. intros k s Hk. by left. Qed.

Lemma AddContext_grows x n q m h r m' h' :
  AddContext D x n q m h = Ret r m' h' -> grows D m h m' h'.
Proof.
  unfold AddContext. destruct (Database m) as [db|] eqn:Hdb.
  2: { intros [= <- <- <-]. rewrite <- (app_nil_r h) at 2. apply grows_same. }
  assert (Hinit : forall evs r0,
    Ret r0 (with_entries m (make_entries m)) (h ++ evs) = Ret r m' h' -> grows D m h m' h').
  { intros evs r0 [= <- <- <-]. split; [done|]. split; [eauto|].
    intros k' s'. rewrite lookup_with_entries, lookup_make_entries. by left. }
  destruct (make_entries m !! n) as [[s0|]|];
    [rewrite <- (app_nil_r h) at 1; by apply Hinit | |];
    (destruct (db_prepare D h db x q) as [s|cause] eqn:Hp; [|by apply Hinit]);
    intros [= <- <- <-]; (split; [done|]); (split; [eauto|]);
    intros k s'; rewrite lookup_with_entries;
    (destruct (decide (n = k)) as [->|Hne];
     [rewrite lookup_insert_eq; intros [= <-]; right;
      exists h, [], db, x, q; by rewrite Hdb
     |rewrite lookup_insert_ne by done; rewrite lookup_make_entries; by left]).
Qed.

Lemma Extend_range_grows x db order e h r e' h' :
  Extend_range D x db order e h = (r, e', h') ->
  (exists evs, h' = h ++ evs)
  /\ forall k s, e' !! k = Some (Some s) ->
       e !! k = Some (Some s) \/ prepared D (Some db) h' s.
Proof.
  revert e h; induction order as [|[k v] rest IH]; intros e h; simpl.
  { intros [= <- <- <-]. split; [exists []; by rewrite app_nil_r|]. by left. }
  destruct (ctx_err D h x).
  { intros [= <- <- <-]. split; [exists []; by rewrite app_nil_r|]. by left. }
  assert (Hstep : match db_prepare D h db x v with
                  | inl s => Extend_range D x db rest (<[k:=Some s]> e) (h ++ [EvPrepare db v])
                  | inr err => (Some (errval (Some err) (msg_adding k)), e, h ++ [EvPrepare db v])
                  end = (r, e', h') ->
          (exists evs, h' = h ++ evs)
          /\ forall k0 s, e' !! k0 = Some (Some s) ->
               e !! k0 = Some (Some s) \/ prepared D (Some db) h' s).
  { destruct (db_prepare D h db x v) as [s|cause] eqn:Hp.
    - intros Hrun. destruct (IH _ _ Hrun) as ([evs ->] & Hheld).
      split; [exists ([EvPrepare db v] ++ evs); by rewrite app_assoc|].
      intros k0 s0 Hk0. destruct (Hheld k0 s0 Hk0) as [Hin | Hprep]; [|by right].
      destruct (decide (k = k0)) as [->|Hne].
      + rewrite lookup_insert_eq in Hin. inversion Hin; subst s0. right.
        exists h, evs, db, x, v. by rewrite <- app_assoc.
      + rewrite lookup_insert_ne in Hin by done. by left.
    - intros [= <- <- <-]. split; [eauto|]. by left. }
  destruct (e !! k) as [[s0|]|]; [|done|done].
  intros [= <- <- <-]. split; [exists []; by rewrite app_nil_r|]. by left.
Qed.

Lemma ExtendContext_grows x data order m h r m' h' :
  ExtendContext D x data order m h = Ret r m' h' -> grows D m h m' h'.
Proof.
  unfold ExtendContext. destruct data as [d|].
  2: { intros [= <- <- <-]. rewrite <- (app_nil_r h) at 2. apply grows_same. }
  destruct (Database m) as [db|] eqn:Hdb.
  2: { intros [= <- <- <-]. rewrite <- (app_nil_r h) at 2. apply grows_same. }
  destruct (Extend_range D x db order (make_entries m) h) as [[r1 e1] h1] eqn:Hrun.
  intros [= <- <- <-]. destruct (Extend_range_grows _ _ _ _ _ _ _ _ Hrun) as (Hevs & Hheld).
  split; [done|]. split; [done|]. intros k s. rewrite lookup_with_entries, Hdb.
  intros Hk. destruct (Hheld k s Hk) as [Hin | Hp]; [|by right].
  left. by rewrite <- lookup_make_entries.
Qed.

Lemma Remove_grows n m h r m' h' :
  Remove D n m h = Ret r m' h' -> grows D m h m' h'.
Proof.
  unfold Remove. destruct (entries m) as [e|] eqn:He.
  2: { intros [= <- <- <-]. rewrite <- (app_nil_r h) at 2. apply grows_same. }
  destruct (e !! n) as [[s|]|]; simpl; [| done |].
  - intros [= <- <- <-]. split; [done|]. split; [eauto|].
    intros k s'. rewrite lookup_with_entries. unfold lookup_entry. rewrite He.
    intros [_ Hk]%lookup_delete_Some. by left.
  - intros [= <- <- <-]. rewrite <- (app_nil_r h) at 2. apply grows_same.
Qed.

Lemma Close_grows order m h r m' h' :
  Close D order m h = Ret r m' h' -> grows D m h m' h'.
Proof.
  intros Hclose. destruct (Close_events _ _ _ _ _ _ Hclose) as (evs & -> & _).
  revert Hclose. unfold Close. destruct (entries m) as [e|] eqn:He.
  2: { destruct (DB_Close D (Database m) h) as [[r1 h1]|]; [|done].
       intros [= <- <- _]. apply grows_same. }
  destruct (Close_range D order e h) as [[err e'] h1] eqn:Hrun.
  assert (Hm' : m' = with_entries m e' -> grows D m h m' (h ++ evs)).
  { intros ->. split; [done|]. split; [eauto|].
    intros k s. rewrite lookup_with_entries. unfold lookup_entry. rewrite He.
    destruct (Close_range_lookup _ _ _ _ _ _ k Hrun) as [-> | [-> _]]; [by left|done]. }
  destruct err as [err|]; simpl.
  - intros [= <- <- _]. by apply Hm'.
  - destruct (DB_Close D (Database m) h1) as [[r1 h2]|]; [|done].
    intros [= <- <- _]. by apply Hm'.
Qed.

Lemma reads_grow x n args queries m h :
  (forall r m' h', ExecContext D x n args m h = Ret r m' h' -> grows D m h m' h')
  /\ (forall r m' h', QueryContext D x n args m h = Ret r m' h' -> grows D m h m' h')
  /\ (forall r m' h', QueryRowContext D x n args m h = Ret r m' h' -> grows D m h m' h')
  /\ (forall r m' h', BatchContext D x queries m h = Ret r m' h' -> grows D m h m' h').
Proof.
  assert (Hsame : forall m' h', m' = m -> (exists evs, h' = h ++ evs) -> grows D m h m' h')
    by (intros m' h' -> [evs ->]; apply grows_same).
  unfold ExecContext, QueryContext, QueryRowContext, BatchContext.
  split; [|split; [|split]]; intros r m' h'.
  1-3: destruct (Database m); [|intros [= <- <- <-]; apply Hsame; [done|exists []; by rewrite app_nil_r]];
       (case_decide; [intros [= <- <- <-]; apply Hsame; [done|exists []; by rewrite app_nil_r]|]);
       destruct (lookup_entry n m) as [[s|]|]; intros [= <- <- <-]; apply Hsame; eauto;
       exists []; by rewrite app_nil_r.
  destruct queries as [|q0 qs]; [intros [= <- <- <-]; apply Hsame; [done|exists []; by rewrite app_nil_r]|].
  destruct (Database m) as [db|]; [|intros [= <- <- <-]; apply Hsame; [done|exists []; by rewrite app_nil_r]].
  pose proof (Batch_range_end x db (q0 :: qs) h) as Hend.
  destruct (Batch_range D x db (q0 :: qs) h) as [r1 h1]. simpl in Hend.
  intros [= <- <- <-]. apply Hsame; [done|]. destruct Hend; eauto.
Qed.

(** Every exported method keeps the connection of the registry and only
    adds to the history; a handle the registry holds after the call was
    held before it or was prepared on the connection during it. *)
Lemma reachable_step_grows m h m' h' :
  (exists x n q r, AddContext D x n q m h = Ret r m' h')
  \/ (exists x data order r, ExtendContext D x data order m h = Ret r m' h')
  \/ (exists n r, Remove D n m h = Ret r m' h')
  \/ (exists order r, Close D order m h = Ret r m' h')
  \/ (exists x queries r, BatchContext D x queries m h = Ret r m' h')
  \/ (exists x n args r, ExecContext D x n args m h = Ret r m' h')
  \/ (exists x n args r, QueryContext D x n args m h = Ret r m' h')
  \/ (exists x n args r, QueryRowContext D x n args m h = Ret r m' h') ->
  grows D m h m' h'.
Proof.
  intros [(x & n & q & r & H) | [(x & data & order & r & H) | [(n & r & H) | [(order & r & H)
         | [(x & qs & r & H) | [(x & n & args & r & H) | [(x & n & args & r & H)
         | (x & n & args & r & H)]]]]]]].
  - by eapply AddContext_grows.
  - by eapply ExtendContext_grows.
  - by eapply Remove_grows.
  - by eapply Close_grows.
  - by eapply (proj2 (proj2 (proj2 (reads_grow x "" [] qs m h)))).
  - by eapply (proj1 (reads_grow x n args [] m h)).
  - by eapply (proj1 (proj2 (reads_grow x n args [] m h))).
  - by eapply (proj1 (proj2 (proj2 (reads_grow x n args [] m h)))).
Qed.

(** In every state a caller can reach through the exported methods, each
    handle the registry holds is one that a prepare, made earlier on the
    connection the registry has, answered: the registry never stores a
    handle from elsewhere, and the methods never change its connection. *)
Theorem handles_come_from_prepare m h k s :
  reachable D m h ->
  lookup_entry k m = Some (Some s) ->
  prepared D (Database m) h s.
Proof.
  intros Hreach. revert k s.
  assert (Hstep : forall m h m' h',
    (forall k s, lookup_entry k m = Some (Some s) -> prepared D (Database m) h s) ->
    grows D m h m' h' ->
    forall k s, lookup_entry k m' = Some (Some s) -> prepared D (Database m') h' s).
  { intros m0 h0 m1 h1 IH (Hdb & [evs ->] & Hheld) k s Hk. rewrite Hdb.
    destruct (Hheld k s Hk) as [Hold | Hnew]; [|done].
    apply prepared_app. by apply (IH k). }
  induction Hreach as [db | m h x n q r m' h' _ IH H | m h x data order r m' h' _ IH _ H
                      | m h n r m' h' _ IH H | m h order r m' h' _ IH _ H
                      | m h x qs r m' h' _ IH H | m h x n args r m' h' _ IH H
                      | m h x n args r m' h' _ IH H | m h x n args r m' h' _ IH H];
    [done | apply (Hstep m h m' h' IH); apply reachable_step_grows ..].
  - left; eauto.
  - right; left; eauto.
  - do 2 right; left; eauto.
  - do 3 right; left; eauto.
  - do 4 right; left; eauto.
  - do 5 right; left; eauto.
  - do 6 right; left; eauto.
  - do 7 right; eauto.
Qed.

(** A registry made without a connection stays as it was made: whatever
    exported methods are called on it, and in whatever order, it holds no
    entry, its map is never made and the database is never called. *)
Theorem unconnected_stays_empty m h :
  reachable D m h ->
  Database m = None ->
  m = unconnected /\ h = [].
Proof.
  intros Hreach.
  induction Hreach as [db | m h x n q r m' h' _ IH H | m h x data order r m' h' _ IH Ho H
                      | m h n r m' h' _ IH H | m h order r m' h' _ IH Ho H
                      | m h x qs r m' h' _ IH H | m h x n args r m' h' _ IH H
                      | m h x n args r m' h' _ IH H | m h x n args r m' h' _ IH H];
    intros Hdb.
  - simpl in Hdb. by subst db.
  - destruct (AddContext_grows _ _ _ _ _ _ _ _ H) as (Hd & _). rewrite Hd in Hdb.
    destruct (IH Hdb) as [-> ->]. by inversion H.
  - destruct (ExtendContext_grows _ _ _ _ _ _ _ _ H) as (Hd & _). rewrite Hd in Hdb.
    destruct (IH Hdb) as [-> ->]. destruct data; by inversion H.
  - destruct (Remove_grows _ _ _ _ _ _ H) as (Hd & _). rewrite Hd in Hdb.
    destruct (IH Hdb) as [-> ->]. by inversion H.
  - destruct (Close_grows _ _ _ _ _ _ H) as (Hd & _). rewrite Hd in Hdb.
    destruct (IH Hdb) as [-> ->]. by inversion H.
  - destruct (proj2 (proj2 (proj2 (reads_grow x "" [] qs m h))) _ _ _ H) as (Hd & _).
    rewrite Hd in Hdb. destruct (IH Hdb) as [-> ->]. destruct qs; by inversion H.
  - destruct (proj1 (reads_grow x n args [] m h) _ _ _ H) as (Hd & _).
    rewrite Hd in Hdb. destruct (IH Hdb) as [-> ->]. by inversion H.
  - destruct (proj1 (proj2 (reads_grow x n args [] m h)) _ _ _ H) as (Hd & _).
    rewrite Hd in Hdb. destruct (IH Hdb) as [-> ->]. by inversion H.
  - destruct (proj1 (proj2 (proj2 (reads_grow x n args [] m h))) _ _ _ H) as (Hd & _).
    rewrite Hd in Hdb. destruct (IH Hdb) as [-> ->]. by inversion H.
Qed.

(** A registry that holds a handle has a connection: only [AddContext] and
    [ExtendContext] store handles, and they do so after a prepare on the
    connection. *)
Lemma reachable_handle_connected m h k s :
  reachable D m h ->
  lookup_entry k m = Some (Some s) ->
  exists db, Database m = Some db.
Proof.
  intros Hreach. revert k s.
  assert (Hstep : forall m h m' h',
    (forall k s, lookup_entry k m = Some (Some s) -> exists db, Database m = Some db) ->
    grows D m h m' h' ->
    forall k s, lookup_entry k m' = Some (Some s) -> exists db, Database m' = Some db).
  { intros m0 h0 m1 h1 IH (Hdb & _ & Hheld) k s Hk. rewrite Hdb.
    destruct (Hheld k s Hk) as [Hold | (_ & _ & d & _ & _ & Hd & _)]; [by apply (IH k s)|eauto]. }
  induction Hreach as [db | m h x n q r m' h' _ IH H | m h x data order r m' h' _ IH _ H
                      | m h n r m' h' _ IH H | m h order r m' h' _ IH _ H
                      | m h x qs r m' h' _ IH H | m h x n args r m' h' _ IH H
                      | m h x n args r m' h' _ IH H | m h x n args r m' h' _ IH H];
    [done | apply (Hstep m h m' h' IH); apply reachable_step_grows ..].
  - left; eauto.
  - right; left; eauto.
  - do 2 right; left; eauto.
  - do 3 right; left; eauto.
  - do 4 right; left; eauto.
  - do 5 right; left; eauto.
  - do 6 right; left; eauto.
  - do 7 right; eauto.
Qed.

(** C1: in every state that calls of the exported methods bring a registry
    to, if the name [n] already holds a handle then [AddContext], and so
    [Add], returns the duplicate-name error, calls nothing on the database
    (no prepare) and leaves the registry exactly as it was, the handle under
    [n] included. *)
Theorem Add_duplicate_name x n q m h s :
  reachable D m h ->
  lookup_entry n m = Some (Some s) ->
  AddContext D x n q m h = Ret (Some (DuplicateName n)) m h
  /\ Add D n q m h = Ret (Some (DuplicateName n)) m h
  /\ lookup_entry n m = Some (Some s).
Proof.
  intros Hreach Hn. destruct (reachable_handle_connected m h n s Hreach Hn) as [db Hdb].
  assert (Hdup : forall x0, AddContext D x0 n q m h = Ret (Some (DuplicateName n)) m h).
  { intros x0. rewrite (AddContext_duplicate x0 n q m h s Hn). by rewrite Hdb. }
  split; [apply Hdup|]. split; [apply Hdup|done].
Qed.

(** *** The text of an error *)

Lemma string_app_assoc (s1 s2 s3 : string) : (s1 +:+ s2) +:+ s3 = s1 +:+ s2 +:+ s3.
Proof.
  induction s1 as [|a s1 IH]; [done|].
  change (String a ((s1 +:+ s2) +:+ s3) = String a (s1 +:+ s2 +:+ s3)). by rewrite IH.
Qed.

(** The text of an error ends with the text of each error it wraps, at any
    depth, after a colon and a space; [Unwrap] gives the nearest of them,
    and an error made outside the package wraps none. *)
Theorem Error_ends_with_causes err c :
  c ∈ causes err ->
  (exists pre, Error err = pre +:+ ": " +:+ Error c)
  /\ (exists c0, Unwrap err = Some c0 /\ (c = c0 \/ c ∈ causes c0)).
Proof.
  revert err c. fix IH 1. intros [msg | [e|] s] c Hin; simpl in Hin.
  - by apply elem_of_nil in Hin.
  - apply elem_of_cons in Hin as [-> | Hin].
    + split; [by exists s|]. exists e. split; [done|by left].
    + split; [|exists e; split; [done|by right]].
      destruct (IH e c Hin) as [[pre Hpre] _]. exists (s +:+ ": " +:+ pre). simpl.
      rewrite Hpre. by rewrite !string_app_assoc.
  - by apply elem_of_nil in Hin.
Qed.

End Properties.

(** ** The operations on the sample database *)

Lemma range_of_singleton {V} (k : string) (v : V) : range_of {[ k := v ]} [(k, v)].
Proof. unfold range_of. by rewrite map_to_list_singleton. Qed.

Lemma range_of_two_entries (a b : option Stmt) :
  range_of (<[ "b" := b ]> {[ "a" := a ]}) (a_then_b a b).
Proof.
  unfold range_of, a_then_b.
  rewrite map_to_list_insert by reflexivity. rewrite map_to_list_singleton. apply perm_swap.
Qed.

(** [Add("a", "SELECT 1")] and then [Close()] on a new registry: both
    return nil, and the registry is left with the name ["a"] and a nil
    handle under it. *)
Lemma nil_entry_reachable :
  reachable (sample None) (one_entry (Some db0) None)
    [EvPrepare db0 "SELECT 1"; EvStmtClose (StmtHandle 0); EvDBClose db0].
Proof.
  apply (reach_Close (sample None) (one_entry (Some db0) (Some (StmtHandle 0)))
           [EvPrepare db0 "SELECT 1"] [("a", Some (StmtHandle 0))] None).
  - apply (reach_Add (sample None) fresh [] Background "a" "SELECT 1" None).
    + apply reach_new.
    + reflexivity.
  - intros e [= <-]. apply range_of_singleton.
  - reflexivity.
Qed.

(** [Add("a", "SELECT 1")] on a new registry. *)
Lemma one_added_reachable :
  reachable (sample None) (one_entry (Some db0) (Some (StmtHandle 0)))
    [EvPrepare db0 "SELECT 1"].
Proof.
  apply (reach_Add (sample None) fresh [] Background "a" "SELECT 1" None).
  - apply reach_new.
  - reflexivity.
Qed.

Lemma Add_duplicate_name_witness :
  reachable (sample None) (one_entry (Some db0) (Some (StmtHandle 0)))
    [EvPrepare db0 "SELECT 1"]
  /\ lookup_entry "a" (one_entry (Some db0) (Some (StmtHandle 0))) = Some (Some (StmtHandle 0))
  /\ AddContext (sample None) Background "a" "SELECT 2"
       (one_entry (Some db0) (Some (StmtHandle 0))) [EvPrepare db0 "SELECT 1"]
     = Ret (Some (DuplicateName "a")) (one_entry (Some db0) (Some (StmtHandle 0)))
         [EvPrepare db0 "SELECT 1"].
Proof.
  split; [apply one_added_reachable|]. split; [reflexivity|].
  apply (Add_duplicate_name (sample None) Background "a" "SELECT 2"
           (one_entry (Some db0) (Some (StmtHandle 0))) [EvPrepare db0 "SELECT 1"]
           (StmtHandle 0) one_added_reachable eq_refl).
Defined.

(** C2 as stated fails: when closing the connection fails, [Close] returns
    the error of the connection as it is; it wraps no cause and is no
    [CloseFailed] error of any name. *)
Lemma Close_connection_error_not_wrapped :
  Close (sample (Some (ExtErr "connection busy"))) [] fresh []
  = Ret (Some (ExtErr "connection busy")) fresh [EvDBClose db0]
  /\ ~ wraps_cause (ExtErr "connection busy")
  /\ forall name cause, ExtErr "connection busy" <> CloseFailed name cause.
Proof.
  split; [reflexivity|]. split; [|discriminate].
  unfold wraps_cause; simpl. by intros [? ?].
Qed.

Lemma Close_stops_at_first_failure_witness :
  Database (two_entries (Some (StmtHandle 0)) (Some (StmtHandle 1))) = Some db0
  /\ range_of (make_entries (two_entries (Some (StmtHandle 0)) (Some (StmtHandle 1))))
       (a_then_b (Some (StmtHandle 0)) (Some (StmtHandle 1)))
  /\ exists (closed : list (string * option Stmt)) r m' h',
       Close (sample None) (a_then_b (Some (StmtHandle 0)) (Some (StmtHandle 1)))
         (two_entries (Some (StmtHandle 0)) (Some (StmtHandle 1))) two_added = Ret r m' h'
       /\ Database m' = Some db0
       /\ (forall k v, (k, Some v) ∈ closed -> lookup_entry k m' = Some None)
       /\ (forall k, (forall v, (k, Some v) ∉ closed) ->
             lookup_entry k m'
             = lookup_entry k (two_entries (Some (StmtHandle 0)) (Some (StmtHandle 1)))).
Proof.
  split; [reflexivity|]. split; [apply range_of_two_entries|].
  destruct (Close_stops_at_first_failure (sample None)
              (a_then_b (Some (StmtHandle 0)) (Some (StmtHandle 1)))
              (two_entries (Some (StmtHandle 0)) (Some (StmtHandle 1))) two_added db0 eq_refl
              (range_of_two_entries (Some (StmtHandle 0)) (Some (StmtHandle 1))))
    as (closed & r & m' & h' & Hclose & Hdb & _ & Hnil & Hsame & _).
  exists closed, r, m', h'. split; [exact Hclose|]. split; [exact Hdb|].
  split; [exact Hnil|exact Hsame].
Defined.

(** What that call does: statement 0 is closed and its entry set to nil,
    the close of statement 1 fails, the error comes back wrapped with the
    name ["b"], that entry is kept and the connection is not closed.  A
    second call skips ["a"] and tries statement 1 again. *)
Lemma Close_failing_entry :
  Close (sample None) (a_then_b (Some (StmtHandle 0)) (Some (StmtHandle 1)))
    (two_entries (Some (StmtHandle 0)) (Some (StmtHandle 1))) two_added
  = Ret (Some (CloseFailed "b" (ExtErr "statement busy")))
      (two_entries None (Some (StmtHandle 1)))
      (two_added ++ [EvStmtClose (StmtHandle 0); EvStmtClose (StmtHandle 1)])
  /\ Close (sample None) (a_then_b None (Some (StmtHandle 1)))
       (two_entries None (Some (StmtHandle 1)))
       (two_added ++ [EvStmtClose (StmtHandle 0); EvStmtClose (StmtHandle 1)])
     = Ret (Some (CloseFailed "b" (ExtErr "statement busy")))
         (two_entries None (Some (StmtHandle 1)))
         (two_added ++ [EvStmtClose (StmtHandle 0); EvStmtClose (StmtHandle 1);
                        EvStmtClose (StmtHandle 1)]).
Proof. split; reflexivity. Qed.

(** [Add("a", "SELECT 1")], [Add("b", "SELECT 2")] and then a [Close()]
    that meets ["a"] first: the registry is left with a nil handle under
    ["a"] and statement 1 still under ["b"]. *)
Lemma half_closed_reachable :
  reachable (sample None) (two_entries None (Some (StmtHandle 1)))
    (two_added ++ [EvStmtClose (StmtHandle 0); EvStmtClose (StmtHandle 1)]).
Proof.
  apply (reach_Close (sample None) (two_entries (Some (StmtHandle 0)) (Some (StmtHandle 1)))
           two_added (a_then_b (Some (StmtHandle 0)) (Some (StmtHandle 1)))
           (Some (CloseFailed "b" (ExtErr "statement busy")))).
  - apply (reach_Add (sample None) (one_entry (Some db0) (Some (StmtHandle 0)))
             [EvPrepare db0 "SELECT 1"] Background "b" "SELECT 2" None).
    + apply (reach_Add (sample None) fresh [] Background "a" "SELECT 1" None).
      * apply reach_new.
      * reflexivity.
    + reflexivity.
  - intros e [= <-]. apply range_of_two_entries.
  - reflexivity.
Qed.

(** C3 as stated fails: after [Add] and [Close] the registry holds the
    name ["a"] with a nil handle, and [Get] reports it as found. *)
Lemma Get_reports_nil_entry :
  exists m h,
    reachable (sample None) m h
    /\ lookup_entry "a" m = Some None
    /\ Get "a" m = (None, true)
    /\ Len m = 1.
Proof.
  exists (one_entry (Some db0) None); eexists.
  split; [apply nil_entry_reachable|]. repeat split.
Qed.

Lemma nil_handles_stay_after_Close_witness :
  range_of (make_entries (one_entry (Some db0) (Some (StmtHandle 0))))
    [("a", Some (StmtHandle 0))]
  /\ Len (one_entry (Some db0) None) = Len (one_entry (Some db0) (Some (StmtHandle 0)))
  /\ Contains "a" (one_entry (Some db0) None) = false.
Proof.
  split; [apply range_of_singleton|].
  destruct (nil_handles_stay_after_Close (sample None) "a" [("a", Some (StmtHandle 0))]
              (one_entry (Some db0) (Some (StmtHandle 0))) [EvPrepare db0 "SELECT 1"])
    as (_ & _ & _ & Hclose).
  destruct (nil_handles_stay_after_Close (sample None) "a" []
              (one_entry (Some db0) None) [])
    as (_ & Hnil & _).
  split.
  - apply (Hclose (range_of_singleton "a" (Some (StmtHandle 0))) None
             (one_entry (Some db0) None)
             [EvPrepare db0 "SELECT 1"; EvStmtClose (StmtHandle 0); EvDBClose db0]).
    reflexivity.
  - apply Hnil. reflexivity.
Defined.

Lemma lookup_without_handle_witness :
  Database (one_entry (Some db0) None) = Some db0
  /\ no_handle "a" (one_entry (Some db0) None)
  /\ ExecContext (sample None) Background "a" [] (one_entry (Some db0) None) []
     = Ret (inr (NotFound "a")) (one_entry (Some db0) None) []
  /\ QueryContext (sample None) Background "a" [] (one_entry (Some db0) None) []
     = Ret (inr (NotFound "a")) (one_entry (Some db0) None) []
  /\ QueryRowContext (sample None) Background "a" [] (one_entry (Some db0) None) []
     = Ret (None, false) (one_entry (Some db0) None) [].
Proof.
  split; [reflexivity|]. split; [right; reflexivity|].
  apply (proj1 (lookup_without_handle (sample None) Background "a" []
                  (one_entry (Some db0) None) []) db0 eq_refl).
  right; reflexivity.
Defined.

Lemma range_of_a_b_c : range_of three_queries a_b_c.
Proof.
  unfold range_of, three_queries, a_b_c.
  rewrite map_to_list_insert by reflexivity. constructor.
  rewrite map_to_list_insert by reflexivity. constructor.
  by rewrite map_to_list_singleton.
Qed.

Lemma ExtendContext_stops_at_first_failure_witness :
  range_of three_queries a_b_c
  /\ ExtendContext (sample None) Background (Some three_queries) a_b_c fresh []
     = Extend_by_Add (sample None) Background a_b_c
         (with_entries fresh (make_entries fresh)) []
  /\ exists added r m' h',
       ExtendContext (sample None) Background (Some three_queries) a_b_c fresh []
       = Ret r m' h'
       /\ extend_end (sample None) Background db0 a_b_c
            (with_entries fresh (make_entries fresh)) [] added r m' h'.
Proof.
  split; [apply range_of_a_b_c|].
  pose proof (ExtendContext_stops_at_first_failure (sample None) Background three_queries
                a_b_c fresh []) as H.
  simpl in H. destruct H as (Heq & added & r & m' & h' & Hrun & Hend & _).
  split; [exact Heq|]. exists added, r, m', h'. split; [exact Hrun|exact Hend].
Defined.

(** [Extend] is not all-or-nothing: met in the order a, b, c, the mapping
    above leaves ["a"] registered, fails on ["b"] with the prepare error
    wrapped under that name, and never prepares the text of ["c"]. *)
Lemma Extend_not_all_or_nothing :
  exists m',
    Extend (sample None) (Some three_queries) a_b_c fresh []
    = Ret (Some (PrepareFailed "b" (ExtErr "syntax error"))) m'
        [EvPrepare db0 "SELECT 1"; EvPrepare db0 "bad"]
    /\ Contains "a" m' = true /\ Contains "b" m' = false /\ Contains "c" m' = false
    /\ Len m' = 1.
Proof. eexists; split; [reflexivity|]. repeat split. Qed.

(** A context that is done after one call stops [Extend] before the second
    prepare, with the error of the context as it is. *)
Lemma Extend_cancelled_between_pairs :
  exists m',
    ExtendContext (sample None) (Cancellable 1) (Some three_queries) a_b_c fresh []
    = Ret (Some (ExtErr "context canceled")) m' [EvPrepare db0 "SELECT 1"]
    /\ Contains "a" m' = true /\ Len m' = 1.
Proof. eexists; split; [reflexivity|]. repeat split. Qed.

Lemma BatchContext_in_order_witness :
  ["CREATE TABLE t (x)"; "bad"; "DROP TABLE t"] <> []
  /\ exists r h',
       BatchContext (sample None) Background ["CREATE TABLE t (x)"; "bad"; "DROP TABLE t"]
         fresh [] = Ret r fresh h'
       /\ batch_end (sample None) Background db0
            ["CREATE TABLE t (x)"; "bad"; "DROP TABLE t"] [] r h'.
Proof.
  split; [discriminate|].
  apply (BatchContext_in_order (sample None) Background
           ["CREATE TABLE t (x)"; "bad"; "DROP TABLE t"] fresh []).
  discriminate.
Defined.

(** What that call does: the first statement runs, the second fails and is
    named in the error, the third is not run. *)
Lemma Batch_failing_statement :
  Batch (sample None) ["CREATE TABLE t (x)"; "bad"; "DROP TABLE t"] fresh []
  = Ret (Some (BatchStatementFailed "bad" (ExtErr "syntax error"))) fresh
      [EvDBExec db0 "CREATE TABLE t (x)"; EvDBExec db0 "bad"].
Proof. reflexivity. Qed.

Lemma Close_without_connection_panics_witness :
  Database (one_entry None (Some (StmtHandle 0))) = None
  /\ (Close_range (sample None) [("a", Some (StmtHandle 0))]
        {[ "a" := Some (StmtHandle 0) ]} []).1.1 = None
  /\ Close (sample None) [("a", Some (StmtHandle 0))]
       (one_entry None (Some (StmtHandle 0))) [] = Panic.
Proof.
  split; [reflexivity|]. split; [reflexivity|].
  apply (Close_without_connection_panics (sample None) [("a", Some (StmtHandle 0))]
           (one_entry None (Some (StmtHandle 0))) []); [reflexivity|].
  intros e [= <-]. reflexivity.
Defined.

(** C7, where the code departs from it: after two [Add]s and a [Close]
    that closed ["a"] and failed on ["b"], the name ["a"] is in the registry
    with a nil handle; [Remove("a")] finds it, calls [Close] on the nil
    handle and panics, where it should return true and delete the entry. *)
Theorem Remove_after_Close_panics :
  exists m h,
    reachable (sample None) m h
    /\ lookup_entry "a" m = Some None
    /\ Remove (sample None) "a" m h = Panic.
Proof.
  exists (two_entries None (Some (StmtHandle 1))); eexists.
  split; [apply half_closed_reachable|]. split; reflexivity.
Qed.

Lemma Add_fresh_name_witness :
  Database fresh = Some db0
  /\ lookup_entry "a" fresh = None
  /\ db_prepare (sample None) [] db0 Background "SELECT 1" = inl (StmtHandle 0)
  /\ exists m' h',
       AddContext (sample None) Background "a" "SELECT 1" fresh [] = Ret None m' h'
       /\ Contains "a" m' = true
       /\ Len m' = S (Len fresh)
       /\ lookup_entry "a" m' = Some (Some (StmtHandle 0)).
Proof.
  split; [reflexivity|]. split; [reflexivity|]. split; [reflexivity|].
  apply (Add_fresh_name (sample None) Background "a" "SELECT 1" fresh [] db0 (StmtHandle 0));
    reflexivity.
Defined.

(** ** The further properties on the sample database *)

Lemma lookup_with_handle_witness :
  Database (one_entry (Some db0) (Some (StmtHandle 0))) = Some db0
  /\ lookup_entry "a" (one_entry (Some db0) (Some (StmtHandle 0))) = Some (Some (StmtHandle 0))
  /\ ExecContext (sample None) Background "a" [ArgInt 1]
       (one_entry (Some db0) (Some (StmtHandle 0))) [EvPrepare db0 "SELECT 1"]
     = Ret (inl (ResultHandle 1)) (one_entry (Some db0) (Some (StmtHandle 0)))
         [EvPrepare db0 "SELECT 1"; EvStmtExec (StmtHandle 0) [ArgInt 1]].
Proof.
  split; [reflexivity|]. split; [reflexivity|].
  apply (lookup_with_handle (sample None) Background "a" [ArgInt 1]
           (one_entry (Some db0) (Some (StmtHandle 0))) [EvPrepare db0 "SELECT 1"]
           db0 (StmtHandle 0)); reflexivity.
Defined.

Lemma Add_then_Get_witness :
  Database (one_entry (Some db0) None) = Some db0
  /\ no_handle "a" (one_entry (Some db0) None)
  /\ db_prepare (sample None) [] db0 Background "SELECT 1" = inl (StmtHandle 0)
  /\ exists m',
       AddContext (sample None) Background "a" "SELECT 1" (one_entry (Some db0) None) []
       = Ret None m' [EvPrepare db0 "SELECT 1"]
       /\ Get "a" m' = (Some (StmtHandle 0), true)
       /\ Len m' = 1.
Proof.
  split; [reflexivity|]. split; [right; reflexivity|]. split; [reflexivity|].
  destruct (Add_then_Get (sample None) Background "a" "SELECT 1" (one_entry (Some db0) None)
              [] db0 (StmtHandle 0) eq_refl (or_intror eq_refl) eq_refl)
    as (m' & Hadd & Hget & _ & Hlen & _).
  exists m'. split; [exact Hadd|]. split; [exact Hget|exact Hlen].
Defined.

Lemma AddContext_prepare_fails_witness :
  Database fresh = Some db0
  /\ no_handle "b" fresh
  /\ db_prepare (sample None) [] db0 Background "bad" = inr (ExtErr "syntax error")
  /\ exists m',
       AddContext (sample None) Background "b" "bad" fresh []
       = Ret (Some (PrepareFailed "b" (ExtErr "syntax error"))) m' [EvPrepare db0 "bad"]
       /\ Len m' = Len fresh.
Proof.
  split; [reflexivity|]. split; [left; reflexivity|]. split; [reflexivity|].
  destruct (AddContext_prepare_fails (sample None) Background "b" "bad" fresh [] db0
              (ExtErr "syntax error") eq_refl (or_introl eq_refl) eq_refl)
    as (m' & Hadd & _ & _ & _ & Hlen & _).
  exists m'. split; [exact Hadd|exact Hlen].
Defined.

Lemma Remove_closes_and_deletes_witness :
  lookup_entry "b" (two_entries (Some (StmtHandle 0)) (Some (StmtHandle 1)))
  = Some (Some (StmtHandle 1))
  /\ lookup_entry "c" (two_entries (Some (StmtHandle 0)) (Some (StmtHandle 1))) = None
  /\ Remove (sample None) "c" (two_entries (Some (StmtHandle 0)) (Some (StmtHandle 1))) two_added
     = Ret false (two_entries (Some (StmtHandle 0)) (Some (StmtHandle 1))) two_added
  /\ exists m',
       Remove (sample None) "b" (two_entries (Some (StmtHandle 0)) (Some (StmtHandle 1)))
         two_added
       = Ret true m' (two_added ++ [EvStmtClose (StmtHandle 1)])
       /\ lookup_entry "b" m' = None.
Proof.
  split; [reflexivity|]. split; [reflexivity|].
  destruct (Remove_closes_and_deletes (sample None) "c"
              (two_entries (Some (StmtHandle 0)) (Some (StmtHandle 1))) two_added)
    as [Habsent _].
  destruct (Remove_closes_and_deletes (sample None) "b"
              (two_entries (Some (StmtHandle 0)) (Some (StmtHandle 1))) two_added)
    as [_ Hheld].
  split; [exact (Habsent eq_refl)|].
  destruct (Hheld (StmtHandle 1) eq_refl) as (m' & Hrun & _ & Hgone & _).
  exists m'. split; [exact Hrun|exact Hgone].
Defined.

Lemma Add_then_Remove_witness :
  Database (one_entry (Some db0) (Some (StmtHandle 0))) = Some db0
  /\ lookup_entry "b" (one_entry (Some db0) (Some (StmtHandle 0))) = None
  /\ db_prepare (sample None) [EvPrepare db0 "SELECT 1"] db0 Background "SELECT 2"
     = inl (StmtHandle 1)
  /\ exists m1,
       AddContext (sample None) Background "b" "SELECT 2"
         (one_entry (Some db0) (Some (StmtHandle 0))) [EvPrepare db0 "SELECT 1"]
       = Ret None m1 two_added
       /\ Remove (sample None) "b" m1 two_added
          = Ret true (one_entry (Some db0) (Some (StmtHandle 0)))
              (two_added ++ [EvStmtClose (StmtHandle 1)]).
Proof.
  split; [reflexivity|]. split; [reflexivity|]. split; [reflexivity|].
  destruct (Add_then_Remove (sample None) Background "b" "SELECT 2"
              (one_entry (Some db0) (Some (StmtHandle 0))) [EvPrepare db0 "SELECT 1"]
              db0 (StmtHandle 1) eq_refl eq_refl eq_refl)
    as (m1 & m2 & Hadd & Hrem & _ & _ & Hsame).
  exists m1. split; [exact Hadd|].
  rewrite <- (Hsame (ex_intro _ _ eq_refl)). exact Hrem.
Defined.

Lemma Extend_one_pair_is_Add_witness :
  ctx_err (sample None) [] Background = None
  /\ Extend (sample None) (Some {[ "a" := "SELECT 1" ]}) [("a", "SELECT 1")] fresh []
     = Add (sample None) "a" "SELECT 1" fresh [].
Proof.
  split; [reflexivity|].
  apply (Extend_one_pair_is_Add (sample None) Background "a" "SELECT 1" fresh []).
  reflexivity.
Defined.
Lemma range_of_a_c : range_of two_queries a_c.
Proof.
  unfold range_of, two_queries, a_c.
  rewrite map_to_list_insert by reflexivity. constructor. by rewrite map_to_list_singleton.
Qed.

Lemma Extend_all_added_witness :
  range_of two_queries a_c
  /\ ExtendContext (sample None) Background (Some two_queries) a_c fresh []
     = Ret None fresh_extended two_added
  /\ Len fresh_extended = Len fresh + size two_queries
  /\ (forall k, is_Some (two_queries !! k) -> Contains k fresh_extended = true).
Proof.
  split; [apply range_of_a_c|]. split; [reflexivity|].
  destruct (Extend_all_added (sample None) Background two_queries a_c fresh []
              fresh_extended two_added range_of_a_c (fun k _ => eq_refl) eq_refl)
    as (_ & Hlen & Hin & _).
  split; [exact Hlen|exact Hin].
Defined.

Lemma Close_closes_everything_witness :
  Database (two_entries (Some (StmtHandle 0)) (Some (StmtHandle 1))) = Some db0
  /\ range_of (make_entries (two_entries (Some (StmtHandle 0)) (Some (StmtHandle 1))))
       (a_then_b (Some (StmtHandle 0)) (Some (StmtHandle 1)))
  /\ (forall hh s, stmt_close calm hh s = None)
  /\ exists m',
       Close calm (a_then_b (Some (StmtHandle 0)) (Some (StmtHandle 1)))
         (two_entries (Some (StmtHandle 0)) (Some (StmtHandle 1))) two_added
       = Ret None m'
           (two_added ++ [EvStmtClose (StmtHandle 0); EvStmtClose (StmtHandle 1); EvDBClose db0])
       /\ (forall k, no_handle k m')
       /\ Len m' = 2.
Proof.
  split; [reflexivity|]. split; [apply range_of_two_entries|]. split; [reflexivity|].
  destruct (Close_closes_everything calm (a_then_b (Some (StmtHandle 0)) (Some (StmtHandle 1)))
              (two_entries (Some (StmtHandle 0)) (Some (StmtHandle 1))) two_added db0 eq_refl
              (range_of_two_entries (Some (StmtHandle 0)) (Some (StmtHandle 1)))
              (fun _ _ => eq_refl))
    as (m' & Hclose & _ & Hnone & _ & Hlen & _).
  exists m'. split; [exact Hclose|]. split; [exact Hnone|exact Hlen].
Defined.

Lemma no_handle_two_nil k : no_handle k (two_entries None None).
Proof.
  unfold no_handle, lookup_entry; simpl.
  destruct (decide (k = "b")) as [->|Hb]; [by right|]. rewrite lookup_insert_ne by done.
  destruct (decide (k = "a")) as [->|Ha]; [by right|]. left. by apply lookup_singleton_ne.
Qed.

Lemma Close_again_witness :
  Database (two_entries None None) = Some db0
  /\ range_of (make_entries (two_entries None None)) (a_then_b None None)
  /\ (forall k, no_handle k (two_entries None None))
  /\ Close (sample (Some (ExtErr "sql: database is closed"))) (a_then_b None None)
       (two_entries None None) []
     = Ret (Some (ExtErr "sql: database is closed")) (two_entries None None) [EvDBClose db0].
Proof.
  split; [reflexivity|]. split; [apply range_of_two_entries|].
  split; [exact no_handle_two_nil|].
  apply (Close_again (sample (Some (ExtErr "sql: database is closed"))) (a_then_b None None)
           (two_entries None None) [] db0 eq_refl (range_of_two_entries None None)
           no_handle_two_nil).
Defined.

Lemma Batch_without_context_witness :
  Database fresh = Some db0
  /\ exists r h',
       Batch (sample None) ["CREATE TABLE t (x)"; "bad"; "DROP TABLE t"] fresh []
       = Ret r fresh h'
       /\ (r = None <->
           forall pre q post,
             ["CREATE TABLE t (x)"; "bad"; "DROP TABLE t"] = pre ++ q :: post ->
             exists res,
               db_exec (sample None) ([] ++ execs db0 pre) db0 Background q = inl res).
Proof.
  split; [reflexivity|].
  destruct (Batch_without_context (sample None) ["CREATE TABLE t (x)"; "bad"; "DROP TABLE t"]
              fresh [] db0 eq_refl)
    as (r & h' & Hrun & _ & Hnil).
  exists r, h'. split; [exact Hrun|exact Hnil].
Defined.

Lemma done_context_calls_nothing_witness :
  Database fresh = Some db0
  /\ ctx_err (sample None) [] (Cancellable 0) = Some (ExtErr "context canceled")
  /\ BatchContext (sample None) (Cancellable 0) ["CREATE TABLE t (x)"] fresh []
     = Ret (Some (ExtErr "context canceled")) fresh []
  /\ ExtendContext (sample None) (Cancellable 0) (Some two_queries) a_c fresh []
     = Ret (Some (ExtErr "context canceled")) (with_entries fresh (make_entries fresh)) [].
Proof.
  split; [reflexivity|]. split; [reflexivity|].
  destruct (done_context_calls_nothing (sample None) (Cancellable 0) (ExtErr "context canceled")
              "a" "SELECT 1" two_queries a_c ["CREATE TABLE t (x)"] fresh [] db0
              eq_refl eq_refl)
    as (Hbatch & Hextend & _).
  split; [apply Hbatch; discriminate | apply Hextend; discriminate].
Defined.

Lemma handles_come_from_prepare_witness :
  reachable (sample None) (two_entries None (Some (StmtHandle 1)))
    (two_added ++ [EvStmtClose (StmtHandle 0); EvStmtClose (StmtHandle 1)])
  /\ lookup_entry "b" (two_entries None (Some (StmtHandle 1))) = Some (Some (StmtHandle 1))
  /\ prepared (sample None) (Some db0)
       (two_added ++ [EvStmtClose (StmtHandle 0); EvStmtClose (StmtHandle 1)]) (StmtHandle 1).
Proof.
  split; [apply half_closed_reachable|]. split; [reflexivity|].
  apply (handles_come_from_prepare (sample None) (two_entries None (Some (StmtHandle 1)))
           (two_added ++ [EvStmtClose (StmtHandle 0); EvStmtClose (StmtHandle 1)])
           "b" (StmtHandle 1) half_closed_reachable eq_refl).
Defined.

(** [Add] on the registry [&mapper.Map{}] reports the missing connection
    and leaves the registry as it was made. *)
Lemma Add_unconnected_reachable : reachable (sample None) unconnected [].
Proof.
  apply (reach_Add (sample None) unconnected [] Background "a" "SELECT 1"
           (Some ErrInvalidDB) unconnected [] (reach_new (sample None) None)).
  reflexivity.
Qed.

Lemma unconnected_stays_empty_witness :
  reachable (sample None) unconnected []
  /\ Database unconnected = None
  /\ unconnected = unconnected /\ @nil Event = [].
Proof.
  split; [apply Add_unconnected_reachable|]. split; [reflexivity|].
  apply (unconnected_stays_empty (sample None) unconnected [] Add_unconnected_reachable eq_refl).
Defined.

Lemma Error_ends_with_causes_witness :
  ExtErr "syntax error" ∈ causes (PrepareFailed "b" (ExtErr "syntax error"))
  /\ Error (PrepareFailed "b" (ExtErr "syntax error"))
     = msg_adding "b" +:+ ": " +:+ "syntax error"
  /\ exists pre, Error (PrepareFailed "b" (ExtErr "syntax error"))
                 = pre +:+ ": " +:+ Error (ExtErr "syntax error").
Proof.
  assert (Hin : ExtErr "syntax error" ∈ causes (PrepareFailed "b" (ExtErr "syntax error")))
    by (apply elem_of_cons; by left).
  split; [exact Hin|]. split; [reflexivity|].
  exact (proj1 (Error_ends_with_causes (PrepareFailed "b" (ExtErr "syntax error"))
                  (ExtErr "syntax error") Hin)).
Defined.

End Mapper.
